(** * simplelru: the TTL-enabled LRU cache of [simplelru/lru_ttl.go]

    A shallow embedding of [LRUTtl] and its methods, followed by the
    properties of the cache: what [Add], [Get], [Remove], [Purge] and
    [Resize] do to the eviction list, the index map, the entries and the
    eviction callback, and the invariant tying the list to the map.

    The Go methods mutate a cache that shares its entries between the
    eviction list and the index map (both hold the same [*list.Element]).
    The embedding therefore keeps the entries in a store addressed by
    natural numbers, the list and the map holding addresses; the methods
    are written in a small state monad over that store. *)

From stdpp Require Import gmap list strings.
From Stdlib Require Import ZArith Lia.

Local Open Scope Z_scope.

(** ** Machine integers, time and timers *)

(** Go's [int] on a 64-bit target: results of arithmetic wrap around. *)
Definition int_wrap (z : Z) : Z := (z + 2 ^ 63) `mod` 2 ^ 64 - 2 ^ 63.
Definition int_sub (a b : Z) : Z := int_wrap (a - b).

(** [time.Time] and [time.Duration], both counted in nanoseconds. *)
Definition Time := Z.
Definition Duration := Z.
Definition Time_Add (t : Time) (d : Duration) : Time := t + d.
(** [t.After(u)] reports whether [t] is strictly later than [u]. *)
Definition Time_After (t u : Time) : bool := u <? t.

(** A [*time.Timer] as the methods see it: whether the runtime still has
    it scheduled ([active]), when it is due, and whether a value is
    waiting in its channel [C]. *)
Record Timer := mkTimer { active : bool; deadline : Time; pending : bool }.

(** [time.NewTimer(d)] called at instant [now]. *)
Definition NewTimer (d : Duration) (now : Time) : Timer :=
  {| active := true; deadline := Time_Add now d; pending := false |}.

(** [t.Stop()]: returns whether the call stopped the timer. *)
Definition Timer_Stop (t : Timer) : bool * Timer :=
  (active t, {| active := false; deadline := deadline t; pending := pending t |}).

(** [t.Reset(d)] called at instant [now]. *)
Definition Timer_Reset (d : Duration) (now : Time) (t : Timer) : Timer :=
  {| active := true; deadline := Time_Add now d; pending := pending t |}.

(** The runtime delivering a timer: once the timer is due, the current
    time is sent on its channel and the timer is no longer scheduled. A
    timer that was stopped, or is not due yet, is not delivered. *)
Definition Timer_fire (now : Time) (t : Timer) : option Timer :=
  if active t && (deadline t <=? now)
  then Some {| active := false; deadline := deadline t; pending := true |}
  else None.

(** ** container/list, as far as the cache uses it

    The list is kept front first; an element is named by its address. *)
Abbreviation addr := nat (only parsing).

Definition list_PushFront (e : addr) (l : list addr) : list addr := e :: l.
(** [l.Remove(e)] unlinks [e] when it belongs to [l]. *)
Definition list_Remove (e : addr) (l : list addr) : list addr :=
  filter (λ x, x ≠ e) l.
(** [l.MoveToFront(e)] does nothing when [e] is not an element of [l]. *)
Definition list_MoveToFront (e : addr) (l : list addr) : list addr :=
  if decide (e ∈ l) then e :: list_Remove e l else l.
(** [l.Back()]: the last element, [None] for Go's nil. *)
Definition list_Back (l : list addr) : option addr := last l.
Definition list_Init (l : list addr) : list addr := [].

(** Keys are taken from a type with a decidable equality, as the keys of
    a Go map are compared with [==]; values are arbitrary. *)
Section Cache.
Context {K : Type} `{Countable K} {V : Type}.

(** ** Data *)

(** [entry_ttl]: what an element of the eviction list holds. *)
Record entry_ttl := mkEntry {
  key : K;
  value : V;
  ttl : Time;
  timer : Timer
}.

(** [LRUTtl] without its lock. [onEvict] is [true] when a callback was
    given; what the callback is called with is recorded in [calls]. *)
Record LRUTtl := mkLRU {
  size : Z;
  evictList : list addr;
  items : gmap K addr;
  onEvict : bool;
  expiry : Duration
}.

(** The cache together with the entries allocated so far (an element and
    the entry it carries are created together and never separated, so one
    address names both) and the calls made to the callback, oldest first.
    Removed entries stay in [heap]: the goroutine started for them by
    [Add] still holds them. *)
Record world := mkWorld {
  cache : LRUTtl;
  heap : list entry_ttl;
  calls : list (K * V)
}.

(** ** The monad of the methods *)

(** A method returns normally, panics (nil dereference, index out of
    range) or blocks for ever on a channel receive. *)
Inductive result (A : Type) : Type :=
| Ok (a : A) (w : world)
| Panic
| Block.
Global Arguments Ok {A} a w.
Global Arguments Panic {A}.
Global Arguments Block {A}.

Definition M (A : Type) : Type := world → result A.

Definition ret {A} (a : A) : M A := λ w, Ok a w.
Definition bind {A B} (m : M A) (f : A → M B) : M B :=
  λ w, match m w with
       | Ok a w' => f a w'
       | Panic => Panic
       | Block => Block
       end.

Notation "x <- m ;; k" := (bind m (λ x, k))
  (at level 100, m at next level, right associativity, only parsing).
Notation "m ;;; k" := (bind m (λ _, k))
  (at level 100, right associativity, only parsing).

Definition get_cache : M LRUTtl := λ w, Ok (cache w) w.
Definition panic {A} : M A := λ _, Panic.
Definition block {A} : M A := λ _, Block.

Definition set_size (n : Z) : M unit := λ w,
  let c := cache w in
  Ok tt {| cache := {| size := n; evictList := evictList c; items := items c;
                       onEvict := onEvict c; expiry := expiry c |};
           heap := heap w; calls := calls w |}.
Definition upd_evictList (f : list addr → list addr) : M unit := λ w,
  let c := cache w in
  Ok tt {| cache := {| size := size c; evictList := f (evictList c); items := items c;
                       onEvict := onEvict c; expiry := expiry c |};
           heap := heap w; calls := calls w |}.
Definition upd_items (f : gmap K addr → gmap K addr) : M unit := λ w,
  let c := cache w in
  Ok tt {| cache := {| size := size c; evictList := evictList c; items := f (items c);
                       onEvict := onEvict c; expiry := expiry c |};
           heap := heap w; calls := calls w |}.

(** [&entry_ttl{...}]: a fresh address. *)
Definition alloc (kv : entry_ttl) : M addr := λ w,
  Ok (length (heap w)) {| cache := cache w; heap := heap w ++ [kv]; calls := calls w |}.
(** The type assertion on [e.Value] followed by a field access. *)
Definition load (e : addr) : M entry_ttl := λ w,
  match heap w !! e with
  | Some kv => Ok kv w
  | None => Panic
  end.
(** Assignment to fields of the entry at [e]. *)
Definition store (e : addr) (f : entry_ttl → entry_ttl) : M unit := λ w,
  match heap w !! e with
  | Some kv => Ok tt {| cache := cache w; heap := <[e := f kv]> (heap w); calls := calls w |}
  | None => Panic
  end.

(** [c.onEvict(k, v)], for a callback that was given: the call is
    recorded. The callback is taken not to call back into the cache. *)
Definition call_onEvict (k : K) (v : V) : M unit := λ w,
  Ok tt {| cache := cache w; heap := heap w; calls := calls w ++ [(k, v)] |}.

(** ** Methods *)

(** [(e *entry_ttl) Reset]: stop the timer, drain its channel when it had
    already fired, arm it again. The receive blocks when nothing is
    waiting in the channel. *)
Definition entry_Reset (d : Duration) (now : Time) (t : Timer) : option Timer :=
  let '(stopped, t1) := Timer_Stop t in
  if stopped then Some (Timer_Reset d now t1)
  else if pending t1
       then Some (Timer_Reset d now {| active := active t1; deadline := deadline t1;
                                        pending := false |})
       else None.

Definition Reset (e : addr) (d : Duration) (now : Time) : M unit :=
  kv <- load e ;;
  match entry_Reset d now (timer kv) with
  | Some t => store e (λ kv, {| key := key kv; value := value kv; ttl := ttl kv; timer := t |})
  | None => block
  end.

Definition NewLRUTtl (sz : Z) (exp : Duration) (cb : bool) : string + world :=
  if sz <=? 0 then inl "Must provide a positive size"%string
  else inr {| cache := {| size := sz; evictList := []; items := ∅;
                          onEvict := cb; expiry := exp |};
              heap := []; calls := [] |}.

Definition removeElement (e : addr) : M unit :=
  upd_evictList (list_Remove e) ;;;
  kv <- load e ;;
  upd_items (delete (key kv)) ;;;
  c <- get_cache ;;
  if onEvict c then call_onEvict (key kv) (value kv) else ret tt.

Definition removeOldest : M unit :=
  c <- get_cache ;;
  match list_Back (evictList c) with
  | Some ent => removeElement ent
  | None => ret tt
  end.

Definition Len : M Z :=
  c <- get_cache ;; ret (Z.of_nat (length (evictList c))).

(** [Purge] ranges over the map, whose iteration order Go leaves open:
    [Purge_in ks] is the loop visiting the keys in the order [ks]. A key
    deleted before its turn is not visited. *)
Fixpoint Purge_range (ks : list K) : M unit :=
  match ks with
  | [] => ret tt
  | k :: ks' =>
      c <- get_cache ;;
      match items c !! k with
      | Some v =>
          (if onEvict c
           then kv <- load v ;; call_onEvict k (value kv)
           else ret tt) ;;;
          upd_items (delete k) ;;;
          Purge_range ks'
      | None => Purge_range ks'
      end
  end.

Definition Purge_in (ks : list K) : M unit :=
  Purge_range ks ;;;
  upd_evictList list_Init.

Definition Purge : M unit :=
  c <- get_cache ;; Purge_in (map fst (map_to_list (items c))).

(** [Add] at instant [now]: the clock readings of one call are taken to
    be the same instant. The goroutine started for a new entry waits for
    the entry's timer and takes no step within the call. *)
Definition Add (k : K) (v : V) (now : Time) : M bool :=
  c <- get_cache ;;
  match items c !! k with
  | Some ent =>
      upd_evictList (list_MoveToFront ent) ;;;
      store ent (λ kv, {| key := key kv; value := v; ttl := ttl kv; timer := timer kv |}) ;;;
      store ent (λ kv, {| key := key kv; value := value kv;
                          ttl := Time_Add now (expiry c); timer := timer kv |}) ;;;
      Reset ent (expiry c) now ;;;
      ret false
  | None =>
      ent <- alloc {| key := k; value := v; ttl := Time_Add now (expiry c);
                      timer := NewTimer (expiry c) now |} ;;
      upd_evictList (list_PushFront ent) ;;;
      upd_items (insert k ent) ;;;
      n <- Len ;;
      c' <- get_cache ;;
      let evict := size c' <? n in
      (if evict then removeOldest else ret tt) ;;;
      ret evict
  end.

Definition Remove (k : K) : M bool :=
  c <- get_cache ;;
  match items c !! k with
  | Some ent => removeElement ent ;;; ret true
  | None => ret false
  end.

(** [Get] at instant [now]. The entry pointer of an element is never nil
    in a cache built by [Add]; the nil test is kept as written. *)
Definition Get (k : K) (now : Time) : M (option V * bool) :=
  c <- get_cache ;;
  match items c !! k with
  | Some ent =>
      upd_evictList (list_MoveToFront ent) ;;;
      w <- (λ w, Ok w w) ;;
      match heap w !! ent with
      | None => ret (None, false)
      | Some kv =>
          if Time_After now (ttl kv)
          then Remove k ;;; ret (None, false)
          else ret (Some (value kv), true)
      end
  | None => ret (None, false)
  end.

Definition Contains (k : K) : M bool :=
  c <- get_cache ;;
  ret (bool_decide (is_Some (items c !! k))).

Definition Peek (k : K) : M (option V * bool) :=
  c <- get_cache ;;
  match items c !! k with
  | Some ent => kv <- load ent ;; ret (Some (value kv), true)
  | None => ret (None, false)
  end.

Definition RemoveOldest : M (option K * option V * bool) :=
  c <- get_cache ;;
  match list_Back (evictList c) with
  | Some ent =>
      removeElement ent ;;;
      kv <- load ent ;;
      ret (Some (key kv), Some (value kv), true)
  | None => ret (None, None, false)
  end.

Definition GetOldest : M (option K * option V * bool) :=
  c <- get_cache ;;
  match list_Back (evictList c) with
  | Some ent =>
      kv <- load ent ;;
      ret (Some (key kv), Some (value kv), true)
  | None => ret (None, None, false)
  end.

(** [Keys]: the slice has one slot per map entry, [None] standing for a
    slot left nil; the loop walks the list from the back and panics when
    it runs past the slice. *)
Fixpoint Keys_loop (ents : list addr) (i : nat) (keys : list (option K))
  : M (list (option K)) :=
  match ents with
  | [] => ret keys
  | ent :: ents' =>
      kv <- load ent ;;
      if decide (i < length keys)%nat
      then Keys_loop ents' (S i) (<[i := Some (key kv)]> keys)
      else panic
  end.

Definition Keys : M (list (option K)) :=
  c <- get_cache ;;
  Keys_loop (reverse (evictList c)) 0%nat (replicate (base.size (items c)) None).

Fixpoint times (n : nat) (m : M unit) : M unit :=
  match n with
  | O => ret tt
  | S n' => m ;;; times n' m
  end.

Definition Resize (sz : Z) : M Z :=
  n <- Len ;;
  let diff := int_sub n sz in
  let diff := if diff <? 0 then 0 else diff in
  times (Z.to_nat diff) removeOldest ;;;
  set_size sz ;;;
  ret diff.

(** [(e *entry_ttl) CleanUp], the body of the goroutine [Add] starts for
    a new entry: receive from the timer's channel, which blocks while
    nothing is waiting there, then remove the entry's key from the cache.
    The lock is free whenever a method is not running. *)
Definition CleanUp (e : addr) : M unit :=
  kv <- load e ;;
  if pending (timer kv)
  then
    store e (λ kv, {| key := key kv; value := value kv; ttl := ttl kv;
                      timer := {| active := active (timer kv);
                                  deadline := deadline (timer kv);
                                  pending := false |} |}) ;;;
    kv <- load e ;;
    Remove (key kv) ;;;
    ret tt
  else block.

(** The first statement of [CleanUp] taken alone, the receive from the
    timer's channel: it leaves the state in which the goroutine then asks
    for the lock. *)
Definition receive (e : addr) : M unit :=
  kv <- load e ;;
  if pending (timer kv)
  then
    store e (λ kv, {| key := key kv; value := value kv; ttl := ttl kv;
                      timer := {| active := active (timer kv);
                                  deadline := deadline (timer kv);
                                  pending := false |} |})
  else block.

(** The runtime delivering the timer of the entry at [e] at instant
    [now], when it is due; no step otherwise. *)
Definition fire (e : addr) (now : Time) : M unit :=
  kv <- load e ;;
  match Timer_fire now (timer kv) with
  | Some t => store e (λ kv, {| key := key kv; value := value kv; ttl := ttl kv; timer := t |})
  | None => ret tt
  end.

(** The calls a user of the cache can make. *)
Inductive op : Type :=
| OAdd (k : K) (v : V) (now : Time)
| OGet (k : K) (now : Time)
| OContains (k : K)
| OPeek (k : K)
| ORemove (k : K)
| ORemoveOldest
| OGetOldest
| OKeys
| OLen
| OPurge
| OResize (sz : Z).

Definition exec (o : op) : M unit :=
  match o with
  | OAdd k v now => Add k v now ;;; ret tt
  | OGet k now => Get k now ;;; ret tt
  | OContains k => Contains k ;;; ret tt
  | OPeek k => Peek k ;;; ret tt
  | ORemove k => Remove k ;;; ret tt
  | ORemoveOldest => RemoveOldest ;;; ret tt
  | OGetOldest => GetOldest ;;; ret tt
  | OKeys => Keys ;;; ret tt
  | OLen => Len ;;; ret tt
  | OPurge => Purge
  | OResize sz => Resize sz ;;; ret tt
  end.

(** A program making the calls [os] one after the other. *)
Fixpoint run (os : list op) : M unit :=
  match os with
  | [] => ret tt
  | o :: os' => exec o ;;; run os'
  end.

End Cache.

Global Arguments entry_ttl : clear implicits.
Global Arguments LRUTtl K {_ _}.
Global Arguments world K {_ _} V.
Global Arguments M K {_ _} V A.
Global Arguments op : clear implicits.

(** ** The state the claims speak about *)

Section Notions.
Context {K : Type} `{Countable K} {V : Type}.
Implicit Types (w : world K V) (c : LRUTtl K) (kv : entry_ttl K V).
Implicit Types (e : addr) (k : K) (v : V) (l : list addr).

(** What a call of the callback adds to the record of calls. *)
Definition called w k v : list (K * V) :=
  if onEvict (cache w) then [(k, v)] else [].

(** The configuration of the cache that only [Resize] changes. *)
Definition same_config w w' : Prop :=
  size (cache w') = size (cache w) ∧
  onEvict (cache w') = onEvict (cache w) ∧
  expiry (cache w') = expiry (cache w).

(** The index and the list describe the same entries: every key of the
    map leads to an element of the list carrying that key, every element
    of the list is the one its key leads to, and no element is linked
    twice. *)
Record consistent w : Prop := {
  cons_nodup : NoDup (evictList (cache w));
  cons_items : ∀ k e, items (cache w) !! k = Some e →
    e ∈ evictList (cache w) ∧ ∃ kv, heap w !! e = Some kv ∧ key kv = k;
  cons_order : ∀ e, e ∈ evictList (cache w) →
    ∃ kv, heap w !! e = Some kv ∧ items (cache w) !! key kv = Some e
}.

(** The timer of every entry in the list is still scheduled. The methods
    keep it so; only the runtime firing a timer ends it. *)
Definition armed w : Prop :=
  ∀ e kv, e ∈ evictList (cache w) → heap w !! e = Some kv →
    active (timer kv) = true.

(** The caches the methods are meant to work on. *)
Definition wf w : Prop := consistent w ∧ armed w.

(** The keys and values carried by the elements [l]. *)
Definition kvs w l : list (K * V) :=
  omap (λ e, (λ kv, (key kv, value kv)) <$> heap w !! e) l.

(** The keys and values of the entries in the list, front first. *)
Definition live w : list (K * V) := kvs w (evictList (cache w)).

(** What calls of the callback with each of [xs] add to the record. *)
Definition called_all w (xs : list (K * V)) : list (K * V) :=
  if onEvict (cache w) then xs else [].

(** The world after the element [e], carrying [kv], left the cache. *)
Definition removed w e kv : world K V :=
  {| cache := {| size := size (cache w);
                 evictList := list_Remove e (evictList (cache w));
                 items := delete (key kv) (items (cache w));
                 onEvict := onEvict (cache w);
                 expiry := expiry (cache w) |};
     heap := heap w;
     calls := calls w ++ called w (key kv) (value kv) |}.

(** The entry [Add] builds for a key that is not in the cache. *)
Definition new_entry w k v (now : Time) : entry_ttl K V :=
  {| key := k; value := v; ttl := Time_Add now (expiry (cache w));
     timer := NewTimer (expiry (cache w)) now |}.

(** The world once that entry is linked at the front and indexed, before
    the size check. *)
Definition inserted w k v (now : Time) : world K V :=
  {| cache := {| size := size (cache w);
                 evictList := length (heap w) :: evictList (cache w);
                 items := <[k := length (heap w)]> (items (cache w));
                 onEvict := onEvict (cache w);
                 expiry := expiry (cache w) |};
     heap := heap w ++ [new_entry w k v now];
     calls := calls w |}.

(** The world after [Add] refreshed the element [e] that carried [kv]. *)
Definition refreshed w e kv v (now : Time) : world K V :=
  {| cache := {| size := size (cache w);
                 evictList := list_MoveToFront e (evictList (cache w));
                 items := items (cache w);
                 onEvict := onEvict (cache w);
                 expiry := expiry (cache w) |};
     heap := <[e := {| key := key kv; value := v;
                       ttl := Time_Add now (expiry (cache w));
                       timer := {| active := true;
                                   deadline := Time_Add now (expiry (cache w));
                                   pending := pending (timer kv) |} |}]> (heap w);
     calls := calls w |}.

(** The world after the element [e] moved to the front of the list. *)
Definition touched w e : world K V :=
  {| cache := {| size := size (cache w);
                 evictList := list_MoveToFront e (evictList (cache w));
                 items := items (cache w);
                 onEvict := onEvict (cache w);
                 expiry := expiry (cache w) |};
     heap := heap w;
     calls := calls w |}.

(** The keys carried by the elements [l]. *)
Definition keys_of w l : list K := omap (λ e, key <$> heap w !! e) l.

(** The world after the capacity was set to [sz]. *)
Definition resized w (sz : Z) : world K V :=
  {| cache := {| size := sz;
                 evictList := evictList (cache w);
                 items := items (cache w);
                 onEvict := onEvict (cache w);
                 expiry := expiry (cache w) |};
     heap := heap w;
     calls := calls w |}.

(** The number of removals [Resize] asks for. *)
Definition Resize_diff w (sz : Z) : Z :=
  let diff := int_sub (Z.of_nat (length (evictList (cache w)))) sz in
  if diff <? 0 then 0 else diff.

(** What the loop of [Purge] reports for the key [k]. *)
Definition purge_call w k : option (K * V) :=
  e ← items (cache w) !! k; kv ← heap w !! e; Some (k, value kv).

(** [ks] lists the keys of the map, each once: an order in which a
    [range] over the map can visit them. *)
Definition range_order w (ks : list K) : Prop :=
  NoDup ks ∧ ∀ k, k ∈ ks ↔ is_Some (items (cache w) !! k).

(** The world after the loop of [Purge] visited the key [k], whose entry
    holds the value [v]. *)
Definition visited w k v : world K V :=
  {| cache := {| size := size (cache w);
                 evictList := evictList (cache w);
                 items := delete k (items (cache w));
                 onEvict := onEvict (cache w);
                 expiry := expiry (cache w) |};
     heap := heap w;
     calls := calls w ++ called w k v |}.

(** A sequence of [Add] calls, each with its key, value and instant. *)
Fixpoint Adds (xs : list (K * V * Time)) : M K V (list bool) :=
  match xs with
  | [] => ret []
  | (k, v, now) :: xs' =>
      bind (Add k v now) (λ b, bind (Adds xs') (λ bs, ret (b :: bs)))
  end.

(** The invariant in the words of the data model: as many keys in the map
    as elements in the list, the keys of the map are the keys carried by
    the elements of the list, and no key is carried twice. *)
Definition index_matches_order w : Prop :=
  base.size (items (cache w)) = length (evictList (cache w)) ∧
  (∀ k, is_Some (items (cache w) !! k) ↔ k ∈ keys_of w (evictList (cache w))) ∧
  NoDup (keys_of w (evictList (cache w))).

(** The keys of the cache from the oldest to the newest, as the list
    links them. *)
Definition key_order w : list K := keys_of w (reverse (evictList (cache w))).



(** An empty cache of capacity 0. *)
Definition drained w : Prop :=
  evictList (cache w) = [] ∧ items (cache w) = ∅ ∧ size (cache w) = 0.

(** The timer of the entry at [e] is stopped in [w]. *)
Definition timer_stopped w e : Prop :=
  ∃ kv, heap w !! e = Some kv ∧ active (timer kv) = false.

(** C6 as stated: [Remove] of a present key cancels the entry's timer,
    removes the entry from the list and the index, calls the callback
    and returns true; on an absent key it returns false and changes
    nothing. *)
Definition Remove_as_stated w k : Prop :=
  match items (cache w) !! k with
  | Some e =>
      ∃ kv w', heap w !! e = Some kv ∧ Remove k w = Ok true w' ∧
        timer_stopped w' e ∧
        (e ∉ evictList (cache w')) ∧ items (cache w') !! k = None ∧
        calls w' = calls w ++ called w k (value kv)
  | None => Remove k w = Ok false w
  end.

(** C7 as stated: [Purge] calls the callback once per entry, cancels the
    timer of each, and leaves [Len() == 0] and [Keys()] empty. *)
Definition Purge_as_stated w : Prop :=
  ∃ w' cs, Purge w = Ok tt w' ∧
    calls w' = calls w ++ called_all w cs ∧ cs ≡ₚ live w ∧
    (∀ e, e ∈ evictList (cache w) → timer_stopped w' e) ∧
    Len w' = Ok 0 w' ∧ Keys w' = Ok [] w'.

(** C8 as stated: [Resize] sets the capacity, evicts from the back until
    the size fits, cancelling the timer of each evicted entry and calling
    the callback, and returns the number of entries evicted, that is
    [max(0, Len() - newCapacity)]; the [newCapacity] elements nearest the
    front survive. *)
Definition Resize_as_stated w (sz : Z) : Prop :=
  let l := evictList (cache w) in
  ∃ n w', Resize sz w = Ok n w' ∧ size (cache w') = sz ∧
    evictList (cache w') = take (Z.to_nat sz) l ∧
    calls w' = calls w ++ called_all w (reverse (kvs w (drop (Z.to_nat sz) l))) ∧
    (∀ e, e ∈ l → e ∉ evictList (cache w') → timer_stopped w' e) ∧
    n = Z.max 0 (Z.of_nat (length l) - sz) ∧
    n = Z.of_nat (length l) - Z.of_nat (length (evictList (cache w'))).

End Notions.

(** ** A cache to try the methods on *)

(** The cache [NewLRUTtl(2, 100, onEvict)] returns. *)
Definition demo0 : world string Z :=
  {| cache := {| size := 2; evictList := []; items := ∅;
                 onEvict := true; expiry := 100 |};
     heap := []; calls := [] |}.

(** The world a method leaves behind. *)
Definition after {A} (m : M string Z A) (w : world string Z) : world string Z :=
  match m w with
  | Ok _ w' => w'
  | _ => w
  end.

(** [Add("A", 1)] at instant 0, then [Add("B", 2)] at instant 1. *)
Definition demo : world string Z :=
  after (Add "B"%string 2 1) (after (Add "A"%string 1 0) demo0).

(** [demo] once the runtime has delivered the timer of "A" at instant
    100. *)
Definition demo_fired : world string Z := after (fire 0%nat 100) demo.

(** [demo_fired] once the goroutine of "A" has received the value from
    the timer's channel and has not yet taken the lock. *)
Definition demo_taken : world string Z := after (receive 0%nat) demo_fired.

(** ** Properties of the methods *)

Section Properties.
Context {K : Type} `{Countable K} {V : Type}.
Implicit Types (w : world K V) (c : LRUTtl K) (kv : entry_ttl K V).
Implicit Types (e : addr) (k : K) (v : V) (l : list addr).

Lemma same_config_refl w : same_config w w.
Proof. by repeat split. Qed.

Lemma same_config_trans w1 w2 w3 :
  same_config w1 w2 → same_config w2 w3 → same_config w1 w3.
Proof. intros (?&?&?) (?&?&?). repeat split; congruence. Qed.

(** *** container/list *)

Lemma list_Remove_elem e x l : x ∈ list_Remove e l ↔ x ≠ e ∧ x ∈ l.
Proof. unfold list_Remove. by rewrite list_elem_of_filter. Qed.

Lemma list_Remove_NoDup e l : NoDup l → NoDup (list_Remove e l).
Proof. apply NoDup_filter. Qed.

Lemma list_Remove_notin e l : e ∉ l → list_Remove e l = l.
Proof.
  unfold list_Remove. induction l as [|x l IH]; intros Hn; [done|].
  rewrite filter_cons. apply not_elem_of_cons in Hn as [Hx Hl].
  destruct (decide (x ≠ e)) as [_|Hc]; [by rewrite IH | by destruct Hc].
Qed.

Lemma list_Remove_snoc e l : e ∉ l → list_Remove e (l ++ [e]) = l.
Proof.
  intros Hn. unfold list_Remove. rewrite filter_app.
  fold (list_Remove e l). rewrite list_Remove_notin by done.
  rewrite filter_cons, filter_nil.
  destruct (decide (e ≠ e)); [done | by rewrite app_nil_r].
Qed.

Lemma list_Remove_length e l :
  NoDup l → e ∈ l → S (length (list_Remove e l)) = length l.
Proof.
  induction l as [|x l IH]; intros Hnd Hin; [by apply elem_of_nil in Hin|].
  apply NoDup_cons in Hnd as [Hx Hnd]. unfold list_Remove. rewrite filter_cons.
  destruct (decide (x ≠ e)) as [Hne|Heq].
  - apply elem_of_cons in Hin as [->|Hin]; [done|].
    simpl. f_equal. by apply IH.
  - assert (x = e) as -> by (destruct (decide (x = e)); [done | by destruct Heq]).
    fold (list_Remove e l). by rewrite list_Remove_notin.
Qed.

Lemma list_MoveToFront_elem e x l : x ∈ list_MoveToFront e l ↔ x ∈ l.
Proof.
  unfold list_MoveToFront. destruct (decide (e ∈ l)) as [Hin|]; [|done].
  rewrite elem_of_cons, list_Remove_elem. split.
  - intros [->|[_ ?]]; done.
  - intros Hx. destruct (decide (x = e)); [by left | by right].
Qed.

Lemma list_MoveToFront_NoDup e l : NoDup l → NoDup (list_MoveToFront e l).
Proof.
  intros Hnd. unfold list_MoveToFront. destruct (decide (e ∈ l)); [|done].
  apply NoDup_cons. split; [|by apply list_Remove_NoDup].
  rewrite list_Remove_elem. by intros [? _].
Qed.

Lemma list_MoveToFront_length e l :
  NoDup l → length (list_MoveToFront e l) = length l.
Proof.
  intros Hnd. unfold list_MoveToFront. destruct (decide (e ∈ l)); [|done].
  simpl. by apply list_Remove_length.
Qed.

Lemma list_MoveToFront_in e l :
  e ∈ l → list_MoveToFront e l = e :: list_Remove e l.
Proof. intros Hin. unfold list_MoveToFront. by rewrite decide_True. Qed.

(** *** Consequences of consistency *)

Lemma consistent_heap_lt w e :
  consistent w → e ∈ evictList (cache w) → (e < length (heap w))%nat.
Proof.
  intros Hc Hin. destruct (cons_order w Hc e Hin) as (kv & Hkv & _).
  by eapply lookup_lt_Some.
Qed.

Lemma consistent_key_inj w e1 e2 kv1 kv2 :
  consistent w → e1 ∈ evictList (cache w) → e2 ∈ evictList (cache w) →
  heap w !! e1 = Some kv1 → heap w !! e2 = Some kv2 →
  key kv1 = key kv2 → e1 = e2.
Proof.
  intros Hc H1 H2 Hk1 Hk2 Heq.
  destruct (cons_order w Hc e1 H1) as (kv1' & Hk1' & Hi1).
  destruct (cons_order w Hc e2 H2) as (kv2' & Hk2' & Hi2).
  simplify_eq. rewrite Heq in Hi1. congruence.
Qed.

Lemma length_omap_total {A B} (f : A → option B) (xs : list A) :
  (∀ x, x ∈ xs → is_Some (f x)) → length (omap f xs) = length xs.
Proof.
  induction xs as [|x xs IH]; intros Hf; [done|]. simpl.
  destruct (Hf x) as [y Hy]; [by left|]. rewrite Hy. simpl. f_equal.
  apply IH. intros z Hz. apply Hf. by right.
Qed.

Lemma NoDup_omap_inj {A B} (f : A → option B) (xs : list A) :
  (∀ x y z, x ∈ xs → y ∈ xs → f x = Some z → f y = Some z → x = y) →
  NoDup xs → NoDup (omap f xs).
Proof.
  intros Hinj Hnd. induction Hnd as [|x xs Hx Hnd IH]; simpl; [constructor|].
  assert (NoDup (omap f xs)) as IH'.
  { apply IH. intros a b z Ha Hb. apply Hinj; by right. }
  destruct (f x) as [z|] eqn:Hz; [|done].
  apply NoDup_cons. split; [|done].
  rewrite list_elem_of_omap. intros (y & Hy & Hfy).
  rewrite (Hinj x y z) in Hx; [done|by left|by right|done|done].
Qed.

(** The map, listed, is the list of elements tagged with their keys. *)
Lemma consistent_map_to_list w :
  consistent w →
  map_to_list (items (cache w)) ≡ₚ
  omap (λ e, (λ kv, (key kv, e)) <$> heap w !! e) (evictList (cache w)).
Proof.
  intros Hc. apply NoDup_Permutation.
  - apply NoDup_map_to_list.
  - apply NoDup_omap_inj; [|apply Hc].
    intros x y [k e] _ _ Hx Hy.
    destruct (heap w !! x); destruct (heap w !! y); simplify_eq/=. done.
  - intros [k e]. rewrite elem_of_map_to_list, list_elem_of_omap. split.
    + intros Hi. destruct (cons_items w Hc k e Hi) as (Hin & kv & Hkv & Hk).
      exists e. split; [done|]. rewrite Hkv. simpl. by rewrite Hk.
    + intros (x & Hin & Hx).
      destruct (cons_order w Hc x Hin) as (kv & Hkv & Hi).
      rewrite Hkv in Hx. simplify_eq/=. done.
Qed.

(** [order.length == index.size] *)
Lemma consistent_size w :
  consistent w → base.size (items (cache w)) = length (evictList (cache w)).
Proof.
  intros Hc. rewrite <- length_map_to_list.
  rewrite (Permutation_length (consistent_map_to_list w Hc)).
  apply length_omap_total. intros e Hin.
  destruct (cons_order w Hc e Hin) as (kv & Hkv & _). rewrite Hkv. by eexists.
Qed.

(** *** The removal path: [removeElement] and [removeOldest] *)

Lemma removeElement_eq w e kv :
  heap w !! e = Some kv → removeElement e w = Ok tt (removed w e kv).
Proof.
  intros Hkv.
  unfold removeElement, bind, upd_evictList, load, upd_items, get_cache.
  unfold call_onEvict, ret, removed, called. simpl. rewrite Hkv. simpl.
  destruct (onEvict (cache w)); [done|]. by rewrite app_nil_r.
Qed.

Lemma removed_consistent w e kv :
  consistent w → e ∈ evictList (cache w) → heap w !! e = Some kv →
  consistent (removed w e kv).
Proof.
  intros Hc Hin Hkv. split; simpl.
  - apply list_Remove_NoDup, Hc.
  - intros k e' Hi. apply lookup_delete_Some in Hi as [Hne Hi].
    destruct (cons_items w Hc k e' Hi) as (Hin' & kv' & Hkv' & Hk).
    split; [|by eauto]. apply list_Remove_elem. split; [|done].
    intros ->. congruence.
  - intros e' Hin'. apply list_Remove_elem in Hin' as [Hne Hin'].
    destruct (cons_order w Hc e' Hin') as (kv' & Hkv' & Hi).
    exists kv'. split; [done|]. rewrite lookup_delete_ne; [done|].
    intros Heq. apply Hne. symmetry.
    by eapply (consistent_key_inj w e e' kv kv').
Qed.

Lemma removed_armed w e kv : armed w → armed (removed w e kv).
Proof.
  intros Ha e' kv' Hin Hkv'. simpl in *.
  apply list_Remove_elem in Hin as [_ Hin]. by eapply Ha.
Qed.

Lemma removed_wf w e kv :
  wf w → e ∈ evictList (cache w) → heap w !! e = Some kv → wf (removed w e kv).
Proof.
  intros [Hc Ha] Hin Hkv. split; [by apply removed_consistent | by apply removed_armed].
Qed.

Lemma removeOldest_nil w :
  evictList (cache w) = [] → removeOldest w = Ok tt w.
Proof. intros Hl. unfold removeOldest, bind, get_cache, list_Back. by rewrite Hl. Qed.

Lemma removeOldest_snoc w l e kv :
  evictList (cache w) = l ++ [e] → heap w !! e = Some kv →
  removeOldest w = Ok tt (removed w e kv).
Proof.
  intros Hl Hkv. unfold removeOldest, bind, get_cache, list_Back.
  rewrite Hl, last_snoc. by apply removeElement_eq.
Qed.

Lemma removed_snoc w l e kv :
  NoDup (evictList (cache w)) → evictList (cache w) = l ++ [e] →
  evictList (cache (removed w e kv)) = l.
Proof.
  intros Hnd Hl. simpl. rewrite Hl in *. apply list_Remove_snoc.
  apply NoDup_app in Hnd as (_ & Hd & _). intros Hin. apply (Hd e Hin). by left.
Qed.

(** [removeOldest] always returns, and keeps the cache well formed. *)
Lemma removeOldest_wf w :
  wf w → ∃ w', removeOldest w = Ok tt w' ∧ wf w' ∧ heap w' = heap w ∧
    same_config w w' ∧
    evictList (cache w') = removelast (evictList (cache w)).
Proof.
  intros Hwf. destruct (last (evictList (cache w))) as [x|] eqn:Hlast;
    [apply last_Some in Hlast as [l0 Hl] | apply last_None in Hlast as Hl]; cycle 1.
  - exists w. rewrite removeOldest_nil by done. rewrite Hl.
    split; [done|]. split; [done|]. split; [done|]. split; [by apply same_config_refl|done].
  - assert (x ∈ evictList (cache w)) as Hin.
    { rewrite Hl. apply elem_of_app. right. by left. }
    destruct (cons_order w (proj1 Hwf) x Hin) as (kv & Hkv & _).
    exists (removed w x kv). rewrite (removeOldest_snoc w l0 x kv) by done.
    split; [done|]. split; [by apply removed_wf|]. split; [done|].
    split; [by repeat split|].
    rewrite (removed_snoc w l0 x kv); [|apply Hwf|done].
    by rewrite Hl, removelast_last.
Qed.

(** The loop of [Resize]: [n] removals at the back leave the front of the
    list, and report the removed entries to the callback oldest first. *)
Lemma times_removeOldest n w :
  wf w →
  let l := evictList (cache w) in
  ∃ w', times n removeOldest w = Ok tt w' ∧ wf w' ∧ heap w' = heap w ∧
    same_config w w' ∧
    evictList (cache w') = take (length l - n) l ∧
    items (cache w') ⊆ items (cache w) ∧
    calls w' = calls w ++ called_all w (reverse (kvs w (drop (length l - n) l))).
Proof.
  revert w. induction n as [|n IH]; intros w Hwf l.
  - exists w. simpl. unfold ret. split; [done|]. split; [done|]. split; [done|].
    split; [by apply same_config_refl|]. split; [|split; [done|]].
    + rewrite take_ge; [done | subst l; lia].
    + rewrite drop_ge by lia. unfold called_all, kvs. simpl.
      destruct (onEvict (cache w)); by rewrite app_nil_r.
  - simpl. unfold bind at 1.
    destruct (last (evictList (cache w))) as [x|] eqn:Hlast;
      [apply last_Some in Hlast as [l0 Hl] | apply last_None in Hlast as Hl]; cycle 1.
    + rewrite removeOldest_nil by done.
      destruct (IH w Hwf) as (w' & Hrun & Hwf' & Hh & Hcfg & Hl' & Hi & Hcalls).
      exists w'. subst l. rewrite Hl in *. simpl in *.
      split; [done|]. split; [done|]. split; [done|]. split; [done|].
      split; [done|]. split; done.
    + assert (x ∈ evictList (cache w)) as Hin.
      { rewrite Hl. apply elem_of_app. right. by left. }
      destruct (cons_order w (proj1 Hwf) x Hin) as (kv & Hkv & Hix).
      rewrite (removeOldest_snoc w l0 x kv) by done.
      pose proof (removed_wf w x kv Hwf Hin Hkv) as Hwf1.
      pose proof (removed_snoc w l0 x kv (cons_nodup w (proj1 Hwf)) Hl) as Hl1.
      destruct (IH _ Hwf1) as (w' & Hrun & Hwf' & Hh & Hcfg & Hl' & Hi & Hcalls).
      exists w'. split; [done|]. split; [done|]. split; [done|].
      split; [by eapply same_config_trans; [|exact Hcfg]; repeat split|].
      subst l. rewrite Hl1 in Hl', Hcalls. rewrite Hl, length_app. simpl.
      replace (length l0 + 1 - S n)%nat with (length l0 - n)%nat by lia.
      split; [|split].
      * rewrite Hl'. rewrite take_app_le by lia. done.
      * etrans; [exact Hi|]. simpl. apply delete_subseteq.
      * rewrite Hcalls. simpl. rewrite <- app_assoc. f_equal.
        rewrite drop_app_le by lia. unfold called_all, called, kvs. simpl.
        rewrite omap_app. simpl. rewrite Hkv. simpl.
        rewrite reverse_app. simpl.
        destruct (onEvict (cache w)); done.
Qed.

(** *** [Add] *)

Lemma Add_absent_eq w k v now :
  items (cache w) !! k = None →
  Add k v now w =
  if size (cache w) <? Z.of_nat (S (length (evictList (cache w))))
  then match removeOldest (inserted w k v now) with
       | Ok _ w' => Ok true w'
       | Panic => Panic
       | Block => Block
       end
  else Ok false (inserted w k v now).
Proof.
  intros Hk. unfold Add, bind at 1. unfold get_cache at 1. rewrite Hk.
  unfold Len, bind, alloc, upd_evictList, upd_items, get_cache, ret, list_PushFront.
  cbn [cache heap calls size evictList items onEvict expiry length].
  fold (new_entry w k v now). fold (inserted w k v now).
  destruct (size (cache w) <? Z.of_nat (S (length (evictList (cache w))))); reflexivity.
Qed.

Lemma inserted_wf w k v now :
  wf w → items (cache w) !! k = None → wf (inserted w k v now).
Proof.
  intros [Hc Ha] Hk. split; [split|]; simpl.
  - apply NoDup_cons. split; [|apply Hc].
    intros Hin. pose proof (consistent_heap_lt w _ Hc Hin). lia.
  - intros k' e Hi. apply lookup_insert_Some in Hi as [[<- <-]|[Hne Hi]].
    + split; [by left|]. exists (new_entry w k v now). split; [|done].
      by rewrite lookup_app_r, Nat.sub_diag.
    + destruct (cons_items w Hc k' e Hi) as (Hin & kv & Hkv & Hkey).
      split; [by right|]. exists kv. split; [|done].
      by apply lookup_app_l_Some.
  - intros e Hin. apply elem_of_cons in Hin as [->|Hin].
    + exists (new_entry w k v now). split.
      * by rewrite lookup_app_r, Nat.sub_diag.
      * simpl. by rewrite lookup_insert_eq.
    + destruct (cons_order w Hc e Hin) as (kv & Hkv & Hi).
      exists kv. split; [by apply lookup_app_l_Some|].
      rewrite lookup_insert_ne; [done|]. intros Heq. rewrite Heq in Hk. congruence.
  - intros e kv Hin Hkv. simpl in *. apply elem_of_cons in Hin as [->|Hin].
    + rewrite lookup_app_r, Nat.sub_diag in Hkv by done. by simplify_eq/=.
    + pose proof (consistent_heap_lt w _ Hc Hin).
      rewrite lookup_app_l in Hkv by done. by eapply Ha.
Qed.

Lemma Add_present_eq w k v now e kv :
  items (cache w) !! k = Some e → heap w !! e = Some kv →
  active (timer kv) = true →
  Add k v now w = Ok false (refreshed w e kv v now).
Proof.
  intros Hk Hkv Hact. pose proof (lookup_lt_Some _ _ _ Hkv) as Hlt.
  unfold Add, bind at 1. unfold get_cache at 1. rewrite Hk.
  unfold Reset, bind, upd_evictList, store, load, ret.
  cbn [cache heap calls size evictList items onEvict expiry].
  rewrite Hkv. cbn [cache heap calls].
  rewrite list_lookup_insert_eq by done. cbn [cache heap calls key value ttl timer].
  rewrite list_lookup_insert_eq by (by rewrite length_insert).
  cbn [cache heap calls key value ttl timer].
  unfold entry_Reset, Timer_Stop, Timer_Reset. rewrite Hact.
  cbn [cache heap calls key value ttl timer active deadline pending].
  rewrite list_lookup_insert_eq by (by rewrite !length_insert).
  rewrite !list_insert_insert_eq. done.
Qed.

Lemma refreshed_wf w k v now e kv :
  wf w → items (cache w) !! k = Some e → heap w !! e = Some kv →
  wf (refreshed w e kv v now).
Proof.
  intros [Hc Ha] Hk Hkv. pose proof (lookup_lt_Some _ _ _ Hkv) as Hlt.
  split; [split|]; simpl.
  - apply list_MoveToFront_NoDup, Hc.
  - intros k' e' Hi. rewrite list_MoveToFront_elem.
    destruct (cons_items w Hc k' e' Hi) as (Hin & kv' & Hkv' & Hkey).
    split; [done|]. destruct (decide (e' = e)) as [->|Hne].
    + rewrite list_lookup_insert_eq by done. eexists. split; [done|].
      simpl. congruence.
    + rewrite list_lookup_insert_ne by done. eauto.
  - intros e' Hin. apply list_MoveToFront_elem in Hin.
    destruct (cons_order w Hc e' Hin) as (kv' & Hkv' & Hi).
    destruct (decide (e' = e)) as [->|Hne].
    + rewrite list_lookup_insert_eq by done. eexists. split; [done|].
      simpl. congruence.
    + rewrite list_lookup_insert_ne by done. eauto.
  - intros e' kv' Hin Hkv'. simpl in *. apply list_MoveToFront_elem in Hin.
    destruct (decide (e' = e)) as [->|Hne].
    + rewrite list_lookup_insert_eq in Hkv' by done. by simplify_eq/=.
    + rewrite list_lookup_insert_ne in Hkv' by done. by eapply Ha.
Qed.

(** *** [Get], [Remove] and the lookups *)

Lemma touched_wf w e : wf w → wf (touched w e).
Proof.
  intros [Hc Ha]. split; [split|]; simpl.
  - apply list_MoveToFront_NoDup, Hc.
  - intros k e' Hi. rewrite list_MoveToFront_elem. by apply Hc.
  - intros e' Hin. apply list_MoveToFront_elem in Hin. by apply Hc.
  - intros e' kv Hin Hkv. simpl in *. apply list_MoveToFront_elem in Hin.
    by eapply Ha.
Qed.

Lemma list_Remove_MoveToFront e l :
  list_Remove e (list_MoveToFront e l) = list_Remove e l.
Proof.
  unfold list_MoveToFront. destruct (decide (e ∈ l)); [|done].
  unfold list_Remove at 1. rewrite filter_cons.
  destruct (decide (e ≠ e)); [done|].
  fold (list_Remove e (list_Remove e l)). apply list_Remove_notin.
  rewrite list_Remove_elem. by intros [? _].
Qed.

Lemma Remove_absent_eq w k :
  items (cache w) !! k = None → Remove k w = Ok false w.
Proof. intros Hk. unfold Remove, bind, get_cache. by rewrite Hk. Qed.

Lemma Remove_present_eq w k e kv :
  items (cache w) !! k = Some e → heap w !! e = Some kv →
  Remove k w = Ok true (removed w e kv).
Proof.
  intros Hk Hkv. unfold Remove, bind at 1. unfold get_cache at 1. rewrite Hk.
  unfold bind. by rewrite (removeElement_eq w e kv).
Qed.

Lemma Get_absent_eq w k now :
  items (cache w) !! k = None → Get k now w = Ok (None, false) w.
Proof. intros Hk. unfold Get, bind, get_cache. by rewrite Hk. Qed.

Lemma Get_present_eq w k now e kv :
  items (cache w) !! k = Some e → heap w !! e = Some kv →
  Get k now w =
  if Time_After now (ttl kv)
  then Ok (None, false) (removed (touched w e) e kv)
  else Ok (Some (value kv), true) (touched w e).
Proof.
  intros Hk Hkv. unfold Get, bind at 1. unfold get_cache at 1. rewrite Hk.
  unfold bind at 1. unfold upd_evictList. fold (touched w e).
  unfold bind at 1. cbn [heap touched]. rewrite Hkv.
  destruct (Time_After now (ttl kv)); [|done].
  unfold bind. by rewrite (Remove_present_eq (touched w e) k e kv).
Qed.

Lemma Peek_absent_eq w k :
  items (cache w) !! k = None → Peek k w = Ok (None, false) w.
Proof. intros Hk. unfold Peek, bind, get_cache. by rewrite Hk. Qed.

Lemma Peek_present_eq w k e kv :
  items (cache w) !! k = Some e → heap w !! e = Some kv →
  Peek k w = Ok (Some (value kv), true) w.
Proof.
  intros Hk Hkv. unfold Peek, bind, get_cache, load. rewrite Hk. by rewrite Hkv.
Qed.

Lemma Contains_eq w k :
  Contains k w = Ok (bool_decide (is_Some (items (cache w) !! k))) w.
Proof. done. Qed.

Lemma Len_eq w : Len w = Ok (Z.of_nat (length (evictList (cache w)))) w.
Proof. done. Qed.

Lemma GetOldest_nil w :
  evictList (cache w) = [] → GetOldest w = Ok (None, None, false) w.
Proof. intros Hl. unfold GetOldest, bind, get_cache, list_Back. by rewrite Hl. Qed.

Lemma GetOldest_snoc w l e kv :
  evictList (cache w) = l ++ [e] → heap w !! e = Some kv →
  GetOldest w = Ok (Some (key kv), Some (value kv), true) w.
Proof.
  intros Hl Hkv. unfold GetOldest, bind, get_cache, list_Back, load.
  rewrite Hl, last_snoc. by rewrite Hkv.
Qed.

Lemma RemoveOldest_nil w :
  evictList (cache w) = [] → RemoveOldest w = Ok (None, None, false) w.
Proof. intros Hl. unfold RemoveOldest, bind, get_cache, list_Back. by rewrite Hl. Qed.

Lemma RemoveOldest_snoc w l e kv :
  evictList (cache w) = l ++ [e] → heap w !! e = Some kv →
  RemoveOldest w = Ok (Some (key kv), Some (value kv), true) (removed w e kv).
Proof.
  intros Hl Hkv. unfold RemoveOldest, bind at 1. unfold get_cache at 1.
  unfold list_Back. rewrite Hl, last_snoc.
  unfold bind, load. rewrite (removeElement_eq w e kv) by done.
  cbn [heap removed]. by rewrite Hkv.
Qed.

(** *** [Keys] *)

Lemma Keys_loop_eq ents : ∀ i (keys : list (option K)) w,
  (∀ e, e ∈ ents → is_Some (heap w !! e)) →
  (i + length ents ≤ length keys)%nat →
  Keys_loop ents i keys w =
  Ok (take i keys ++ (Some <$> keys_of w ents) ++ drop (i + length ents) keys) w.
Proof.
  induction ents as [|e ents IH]; intros i keys w Hheap Hlen; simpl in *.
  - unfold ret. by rewrite Nat.add_0_r, take_drop.
  - destruct (Hheap e) as [kv Hkv]; [by left|].
    unfold bind, load. rewrite Hkv. rewrite decide_True by lia.
    rewrite IH; [|intros; apply Hheap; by right|rewrite length_insert; lia].
    f_equal. simpl.
    rewrite (take_S_r _ _ (Some (key kv))) by (apply list_lookup_insert_eq; lia).
    rewrite take_insert_ge by lia. rewrite drop_insert_lt by lia.
    rewrite <- app_assoc. simpl. by rewrite Nat.add_succ_r.
Qed.

Lemma Keys_eq w :
  consistent w →
  Keys w = Ok (Some <$> keys_of w (reverse (evictList (cache w)))) w.
Proof.
  intros Hc. unfold Keys, bind, get_cache.
  rewrite Keys_loop_eq.
  - rewrite length_reverse, (consistent_size w Hc). simpl.
    rewrite drop_ge by (rewrite length_replicate; lia). by rewrite app_nil_r.
  - intros e Hin. rewrite elem_of_reverse in Hin.
    destruct (cons_order w Hc e Hin) as (kv & Hkv & _). by eexists.
  - rewrite length_reverse, length_replicate, (consistent_size w Hc). lia.
Qed.

(** *** [Resize] *)

Lemma resized_wf w sz : wf w → wf (resized w sz).
Proof. intros [[? ? ?] Ha]. split; [by split|]. exact Ha. Qed.

Lemma Resize_eq w sz :
  Resize sz w =
  match times (Z.to_nat (Resize_diff w sz)) removeOldest w with
  | Ok _ w' => Ok (Resize_diff w sz) (resized w' sz)
  | Panic => Panic
  | Block => Block
  end.
Proof.
  unfold Resize, Len, bind, get_cache, ret, set_size. fold (Resize_diff w sz).
  by destruct (times (Z.to_nat (Resize_diff w sz)) removeOldest w).
Qed.

Lemma int_wrap_small z : - 2 ^ 63 <= z < 2 ^ 63 → int_wrap z = z.
Proof. intros Hz. unfold int_wrap. rewrite Z.mod_small; lia. Qed.

Lemma Resize_diff_small w sz :
  Z.of_nat (length (evictList (cache w))) < 2 ^ 63 → 0 <= sz < 2 ^ 63 →
  Resize_diff w sz = Z.max 0 (Z.of_nat (length (evictList (cache w))) - sz).
Proof.
  intros Hlen Hsz. unfold Resize_diff, int_sub. rewrite int_wrap_small by lia.
  destruct (Z.ltb_spec (Z.of_nat (length (evictList (cache w))) - sz) 0); lia.
Qed.

Lemma Resize_diff_nonneg w sz : 0 <= Resize_diff w sz.
Proof.
  unfold Resize_diff.
  destruct (Z.ltb_spec (int_sub (Z.of_nat (length (evictList (cache w)))) sz) 0); lia.
Qed.

(** [Resize] returns for every new size and keeps the cache well formed. *)
Lemma Resize_wf w sz :
  wf w →
  let l := evictList (cache w) in
  let n := Z.to_nat (Resize_diff w sz) in
  ∃ w', Resize sz w = Ok (Resize_diff w sz) w' ∧ wf w' ∧
    size (cache w') = sz ∧
    onEvict (cache w') = onEvict (cache w) ∧
    expiry (cache w') = expiry (cache w) ∧
    heap w' = heap w ∧
    evictList (cache w') = take (length l - n) l ∧
    items (cache w') ⊆ items (cache w) ∧
    calls w' = calls w ++ called_all w (reverse (kvs w (drop (length l - n) l))).
Proof.
  intros Hwf l n. rewrite Resize_eq.
  destruct (times_removeOldest n w Hwf)
    as (w' & Hrun & Hwf' & Hh & (Hs & Ho & He) & Hl & Hi & Hcalls).
  fold n. rewrite Hrun. exists (resized w' sz).
  split; [done|]. split; [by apply resized_wf|]. by repeat split.
Qed.

(** *** [Purge] *)

Lemma omap_ext_in {A B} (f g : A → option B) (xs : list A) :
  (∀ x, x ∈ xs → f x = g x) → omap f xs = omap g xs.
Proof.
  induction xs as [|x xs IH]; intros Hfg; [done|].
  assert (omap f xs = omap g xs) as IH'.
  { apply IH. intros y Hy. apply Hfg. by right. }
  change (omap f (x :: xs)) with (from_option (λ y, y :: omap f xs) (omap f xs) (f x)).
  change (omap g (x :: xs)) with (from_option (λ y, y :: omap g xs) (omap g xs) (g x)).
  rewrite IH', (Hfg x); [done | by left].
Qed.

Lemma Purge_visit_eq w k e kv (m : M K V unit) :
  heap w !! e = Some kv →
  bind (if onEvict (cache w)
        then bind (load e) (λ kv, call_onEvict k (value kv))
        else ret tt)
       (λ _, bind (upd_items (delete k)) (λ _, m)) w
  = m (visited w k (value kv)).
Proof.
  intros Hkv. unfold visited, called.
  destruct (onEvict (cache w)) eqn:Ho;
    unfold bind, load, call_onEvict, upd_items, ret; rewrite ?Hkv; simpl;
    rewrite ?Ho, ?app_nil_r; reflexivity.
Qed.

Lemma Purge_range_eq ks : ∀ w,
  NoDup ks →
  (∀ k e, items (cache w) !! k = Some e → is_Some (heap w !! e)) →
  ∃ w', Purge_range ks w = Ok tt w' ∧ heap w' = heap w ∧ same_config w w' ∧
    evictList (cache w') = evictList (cache w) ∧
    (∀ k, items (cache w') !! k =
          if decide (k ∈ ks) then None else items (cache w) !! k) ∧
    calls w' = calls w ++ called_all w (omap (purge_call w) ks).
Proof.
  induction ks as [|k ks IH]; intros w Hnd Hheap.
  - exists w. simpl. unfold ret, called_all.
    split; [done|]. split; [done|]. split; [apply same_config_refl|].
    split; [done|]. split.
    + intros k. destruct (decide (k ∈ [])) as [Hin|]; [by apply elem_of_nil in Hin|done].
    + destruct (onEvict (cache w)); by rewrite app_nil_r.
  - apply NoDup_cons in Hnd as [Hk Hnd]. simpl.
    unfold bind at 1. unfold get_cache at 1.
    destruct (items (cache w) !! k) as [e|] eqn:Hi.
    + destruct (Hheap k e Hi) as [kv Hkv].
      rewrite (Purge_visit_eq w k e kv) by done.
      set (w1 := visited w k (value kv)).
      assert (∀ k' e', items (cache w1) !! k' = Some e' → is_Some (heap w1 !! e'))
        as Hheap1.
      { intros k' e' Hi'. simpl in *. apply lookup_delete_Some in Hi' as [_ Hi'].
        by eapply Hheap. }
      destruct (IH w1 Hnd Hheap1) as (w' & Hrun & Hh & Hcfg & Hl & Hit & Hcalls).
      exists w'. split; [done|].
      split; [done|]. split; [by eapply same_config_trans; [|exact Hcfg]; repeat split|].
      split; [done|]. split.
      * intros k'. rewrite Hit. simpl.
        destruct (decide (k' = k)) as [->|Hne].
        -- rewrite (decide_True (P := k ∈ k :: ks)) by (by left).
           rewrite lookup_delete_eq. by destruct (decide (k ∈ ks)).
        -- rewrite lookup_delete_ne by done.
           destruct (decide (k' ∈ ks)) as [Hin|Hnin].
           ++ by rewrite decide_True by (by right).
           ++ rewrite decide_False; [done|].
              intros Hc. apply elem_of_cons in Hc as [?|?]; done.
      * rewrite Hcalls. simpl. rewrite <- app_assoc. f_equal.
        assert (purge_call w k = Some (k, value kv)) as ->.
        { unfold purge_call. rewrite Hi. simpl. by rewrite Hkv. }
        rewrite (omap_ext_in (purge_call w1) (purge_call w)).
        -- unfold called_all, called. simpl. by destruct (onEvict (cache w)).
        -- intros k' Hk'. unfold purge_call. simpl.
           rewrite lookup_delete_ne; [done|]. by intros ->.
    + destruct (IH w Hnd Hheap) as (w' & Hrun & Hh & Hcfg & Hl & Hit & Hcalls).
      exists w'. split; [done|]. split; [done|]. split; [done|]. split; [done|].
      split.
      * intros k'. rewrite Hit. destruct (decide (k' = k)) as [->|Hne].
        -- rewrite (decide_True (P := k ∈ k :: ks)) by (by left).
           by destruct (decide (k ∈ ks)).
        -- destruct (decide (k' ∈ ks)) as [Hin|Hnin].
           ++ by rewrite decide_True by (by right).
           ++ rewrite decide_False; [done|].
              intros Hc. apply elem_of_cons in Hc as [?|?]; done.
      * rewrite Hcalls. simpl.
        assert (purge_call w k = None) as ->; [|done].
        unfold purge_call. by rewrite Hi.
Qed.

Lemma empty_wf w :
  evictList (cache w) = [] → items (cache w) = ∅ → wf w.
Proof.
  intros Hl Hi. split; [split|].
  - rewrite Hl. constructor.
  - intros k e. by rewrite Hi, lookup_empty.
  - intros e. rewrite Hl. by intros ?%elem_of_nil.
  - intros e kv. rewrite Hl. by intros ?%elem_of_nil.
Qed.

Lemma Purge_in_eq w ks :
  consistent w → range_order w ks →
  ∃ w', Purge_in ks w = Ok tt w' ∧ heap w' = heap w ∧ same_config w w' ∧
    evictList (cache w') = [] ∧ items (cache w') = ∅ ∧
    calls w' = calls w ++ called_all w (omap (purge_call w) ks).
Proof.
  intros Hc [Hnd Hks].
  destruct (Purge_range_eq ks w Hnd) as (w1 & Hrun & Hh & Hcfg & Hl & Hit & Hcalls).
  { intros k e Hi. destruct (cons_items w Hc k e Hi) as (_ & kv & Hkv & _). by eexists. }
  unfold Purge_in, bind. rewrite Hrun. unfold upd_evictList, list_Init.
  eexists. split; [done|]. simpl. split; [done|].
  split; [destruct Hcfg as (?&?&?); by repeat split|].
  split; [done|]. split; [|done].
  apply map_empty. intros k. rewrite Hit.
  destruct (decide (k ∈ ks)) as [|Hn]; [done|].
  destruct (items (cache w) !! k) eqn:Hi; [|done].
  destruct Hn. apply Hks. by eexists.
Qed.

(** The loop of [Purge] reports each entry of the list once. *)
Lemma purge_calls_perm w ks :
  consistent w → range_order w ks → omap (purge_call w) ks ≡ₚ live w.
Proof.
  intros Hc [Hnd Hks]. apply NoDup_Permutation.
  - apply NoDup_omap_inj; [|done]. intros x y [k v] _ _ Hx Hy.
    unfold purge_call in *.
    destruct (items (cache w) !! x) as [ex|]; [|done].
    destruct (items (cache w) !! y) as [ey|]; [|done]. simpl in *.
    destruct (heap w !! ex); [|done]. destruct (heap w !! ey); [|done].
    simpl in *. congruence.
  - unfold live, kvs. apply NoDup_omap_inj; [|apply Hc].
    intros x y [k v] Hinx Hiny Hx Hy.
    destruct (heap w !! x) as [kx|] eqn:Hkx; [|done].
    destruct (heap w !! y) as [ky|] eqn:Hky; [|done]. simpl in *.
    apply (consistent_key_inj w x y kx ky); [done..|]. congruence.
  - intros [k v]. unfold live, kvs. rewrite !list_elem_of_omap. split.
    + intros (x & Hx & Hcall). unfold purge_call in Hcall.
      destruct (items (cache w) !! x) as [e|] eqn:Hi; [|done]. simpl in Hcall.
      destruct (heap w !! e) as [kv|] eqn:Hkv; [|done]. simpl in Hcall.
      destruct (cons_items w Hc x e Hi) as (Hin & kv' & Hkv' & Hkey).
      exists e. split; [done|]. rewrite Hkv. simpl. simplify_eq. done.
    + intros (e & Hin & He).
      destruct (cons_order w Hc e Hin) as (kv & Hkv & Hi).
      rewrite Hkv in He. simpl in He. exists (key kv). split.
      * apply Hks. by eexists.
      * unfold purge_call. rewrite Hi. simpl. rewrite Hkv. simpl. congruence.
Qed.

Lemma range_order_map_to_list w :
  range_order w (map_to_list (items (cache w))).*1.
Proof.
  split; [apply NoDup_fst_map_to_list|]. intros k.
  rewrite list_elem_of_fmap. split.
  - intros ([k' e] & -> & Hin). apply elem_of_map_to_list in Hin. by eexists.
  - intros [e He]. exists (k, e). split; [done|]. by apply elem_of_map_to_list.
Qed.

Lemma Purge_eq w : Purge w = Purge_in (map_to_list (items (cache w))).*1 w.
Proof. done. Qed.

(** *** Every method returns and keeps the cache well formed *)

Lemma length_removelast_cons {A} (x : A) (xs : list A) :
  length (removelast (x :: xs)) = length xs.
Proof.
  destruct (last (x :: xs)) as [y|] eqn:Hlast;
    [apply last_Some in Hlast as [l0 Hl] | by apply last_None in Hlast].
  rewrite Hl, removelast_last.
  apply (f_equal length) in Hl. rewrite length_app in Hl. simpl in Hl. lia.
Qed.

Lemma Add_wf w k v now :
  wf w →
  ∃ b w', Add k v now w = Ok b w' ∧ wf w' ∧ same_config w w' ∧
    (Z.of_nat (length (evictList (cache w))) <= size (cache w) →
     Z.of_nat (length (evictList (cache w'))) <= size (cache w')).
Proof.
  intros Hwf. destruct (items (cache w) !! k) as [e|] eqn:Hk.
  - destruct (cons_items w (proj1 Hwf) k e Hk) as (Hin & kv & Hkv & Hkey).
    pose proof (proj2 Hwf e kv Hin Hkv) as Hact.
    exists false, (refreshed w e kv v now).
    split; [by apply Add_present_eq|]. split; [by eapply refreshed_wf|].
    split; [by repeat split|]. simpl.
    rewrite list_MoveToFront_length; [done|apply Hwf].
  - rewrite Add_absent_eq by done.
    pose proof (inserted_wf w k v now Hwf Hk) as Hwf1.
    destruct (Z.ltb_spec (size (cache w)) (Z.of_nat (S (length (evictList (cache w)))))).
    + destruct (removeOldest_wf _ Hwf1) as (w' & -> & Hwf' & Hh & Hcfg & Hl).
      exists true, w'. split; [done|]. split; [done|].
      split; [by eapply same_config_trans; [|exact Hcfg]; repeat split|].
      destruct Hcfg as (-> & _). rewrite Hl. cbn [inserted cache evictList size].
      by rewrite length_removelast_cons.
    + exists false, (inserted w k v now). split; [done|]. split; [done|].
      split; [by repeat split|]. simpl. lia.
Qed.

Lemma Get_wf w k now :
  wf w → ∃ r w', Get k now w = Ok r w' ∧ wf w'.
Proof.
  intros Hwf. destruct (items (cache w) !! k) as [e|] eqn:Hk.
  - destruct (cons_items w (proj1 Hwf) k e Hk) as (Hin & kv & Hkv & Hkey).
    rewrite (Get_present_eq w k now e kv) by done.
    destruct (Time_After now (ttl kv)); eexists _, _; (split; [done|]).
    + apply removed_wf; [by apply touched_wf| |done].
      simpl. by apply list_MoveToFront_elem.
    + by apply touched_wf.
  - rewrite Get_absent_eq by done. by eexists _, _.
Qed.

Lemma Remove_wf w k :
  wf w → ∃ b w', Remove k w = Ok b w' ∧ wf w'.
Proof.
  intros Hwf. destruct (items (cache w) !! k) as [e|] eqn:Hk.
  - destruct (cons_items w (proj1 Hwf) k e Hk) as (Hin & kv & Hkv & Hkey).
    rewrite (Remove_present_eq w k e kv) by done.
    eexists _, _. split; [done|]. by apply removed_wf.
  - rewrite Remove_absent_eq by done. by eexists _, _.
Qed.

Lemma Peek_wf w k :
  wf w → ∃ r, Peek k w = Ok r w.
Proof.
  intros Hwf. destruct (items (cache w) !! k) as [e|] eqn:Hk.
  - destruct (cons_items w (proj1 Hwf) k e Hk) as (Hin & kv & Hkv & Hkey).
    rewrite (Peek_present_eq w k e kv) by done. by eexists.
  - rewrite Peek_absent_eq by done. by eexists.
Qed.

Lemma RemoveOldest_wf w :
  wf w → ∃ r w', RemoveOldest w = Ok r w' ∧ wf w'.
Proof.
  intros Hwf. destruct (last (evictList (cache w))) as [x|] eqn:Hlast;
    [apply last_Some in Hlast as [l0 Hl] | apply last_None in Hlast as Hl].
  - assert (x ∈ evictList (cache w)) as Hin.
    { rewrite Hl. apply elem_of_app. right. by left. }
    destruct (cons_order w (proj1 Hwf) x Hin) as (kv & Hkv & _).
    rewrite (RemoveOldest_snoc w l0 x kv) by done.
    eexists _, _. split; [done|]. by apply removed_wf.
  - rewrite RemoveOldest_nil by done. by eexists _, _.
Qed.

Lemma GetOldest_wf w :
  wf w → ∃ r, GetOldest w = Ok r w.
Proof.
  intros Hwf. destruct (last (evictList (cache w))) as [x|] eqn:Hlast;
    [apply last_Some in Hlast as [l0 Hl] | apply last_None in Hlast as Hl].
  - assert (x ∈ evictList (cache w)) as Hin.
    { rewrite Hl. apply elem_of_app. right. by left. }
    destruct (cons_order w (proj1 Hwf) x Hin) as (kv & Hkv & _).
    rewrite (GetOldest_snoc w l0 x kv) by done. by eexists.
  - rewrite GetOldest_nil by done. by eexists.
Qed.

Lemma Purge_in_wf w ks :
  wf w → range_order w ks → ∃ w', Purge_in ks w = Ok tt w' ∧ wf w'.
Proof.
  intros Hwf Hks.
  destruct (Purge_in_eq w ks (proj1 Hwf) Hks) as (w' & Hrun & _ & _ & Hl & Hi & _).
  exists w'. split; [done|]. by apply empty_wf.
Qed.

Lemma Adds_wf xs : ∀ w,
  wf w → Z.of_nat (length (evictList (cache w))) <= size (cache w) →
  ∃ bs w', Adds xs w = Ok bs w' ∧ wf w' ∧ same_config w w' ∧
    Z.of_nat (length (evictList (cache w'))) <= size (cache w').
Proof.
  induction xs as [|[[k v] now] xs IH]; intros w Hwf Hlen; simpl.
  - exists [], w. split; [done|]. split; [done|]. split; [apply same_config_refl|done].
  - destruct (Add_wf w k v now Hwf) as (b & w1 & Hadd & Hwf1 & Hcfg1 & Hlen1).
    destruct (IH w1 Hwf1 (Hlen1 Hlen)) as (bs & w' & Hrun & Hwf' & Hcfg & Hlen').
    exists (b :: bs), w'. unfold bind. rewrite Hadd, Hrun.
    split; [done|]. split; [done|]. split; [by eapply same_config_trans|done].
Qed.

Lemma NewLRUTtl_wf sz exp cb w :
  NewLRUTtl (K := K) (V := V) sz exp cb = inr w →
  wf w ∧ 0 < sz ∧ size (cache w) = sz ∧ evictList (cache w) = [] ∧
  items (cache w) = ∅ ∧ onEvict (cache w) = cb ∧ expiry (cache w) = exp ∧
  heap w = [] ∧ calls w = [].
Proof.
  unfold NewLRUTtl. destruct (Z.leb_spec sz 0); [done|].
  intros [= <-]. split; [by apply empty_wf|]. by repeat split.
Qed.

(** *** The index and the list hold the same keys *)

Lemma consistent_index w : consistent w → index_matches_order w.
Proof.
  intros Hc. split; [by apply consistent_size|]. split.
  - intros k. unfold keys_of. rewrite list_elem_of_omap. split.
    + intros [e Hi]. destruct (cons_items w Hc k e Hi) as (Hin & kv & Hkv & Hkey).
      exists e. split; [done|]. rewrite Hkv. simpl. by rewrite Hkey.
    + intros (e & Hin & He). destruct (cons_order w Hc e Hin) as (kv & Hkv & Hi).
      rewrite Hkv in He. simplify_eq/=. by eexists.
  - apply NoDup_omap_inj; [|apply Hc]. intros x y k Hx Hy Hkx Hky.
    destruct (heap w !! x) as [kx|] eqn:Ex; [|done].
    destruct (heap w !! y) as [ky|] eqn:Ey; [|done]. simpl in *.
    apply (consistent_key_inj w x y kx ky); [done..|]. congruence.
Qed.

(** *** A cache of capacity 0 *)

Lemma Add_drained w k v now :
  drained w →
  ∃ w', Add k v now w = Ok true w' ∧ drained w' ∧
    onEvict (cache w') = onEvict (cache w) ∧
    calls w' = calls w ++ called w k v.
Proof.
  intros (Hl & Hi & Hs). rewrite Add_absent_eq by (by rewrite Hi, lookup_empty).
  rewrite Hl, Hs. simpl.
  rewrite (removeOldest_snoc (inserted w k v now) [] (length (heap w))
             (new_entry w k v now)).
  - eexists. split; [done|]. split; [|done]. split; [|split]; simpl.
    + rewrite Hl. unfold list_Remove. rewrite filter_cons, filter_nil.
      by destruct (decide (length (heap w) ≠ length (heap w))).
    + rewrite Hi. by rewrite delete_insert_eq, delete_empty.
    + done.
  - simpl. by rewrite Hl.
  - simpl. by rewrite lookup_app_r, Nat.sub_diag.
Qed.

Lemma Adds_drained xs : ∀ w,
  drained w →
  ∃ w', Adds xs w = Ok ((λ _, true) <$> xs) w' ∧ drained w' ∧
    onEvict (cache w') = onEvict (cache w) ∧
    calls w' = calls w ++ called_all w ((λ x, (x.1.1, x.1.2)) <$> xs).
Proof.
  induction xs as [|[[k v] now] xs IH]; intros w Hd; simpl.
  - exists w. unfold ret, called_all. split; [done|]. split; [done|]. split; [done|].
    destruct (onEvict (cache w)); by rewrite app_nil_r.
  - destruct (Add_drained w k v now Hd) as (w1 & Hadd & Hd1 & Ho1 & Hc1).
    destruct (IH w1 Hd1) as (w' & Hrun & Hd' & Ho' & Hc').
    exists w'. unfold bind. rewrite Hadd, Hrun. unfold ret.
    split; [done|]. split; [done|]. split; [congruence|].
    rewrite Hc', Hc1, <- app_assoc. f_equal.
    unfold called_all, called. rewrite Ho1. by destruct (onEvict (cache w)).
Qed.

(** ** The claims *)

(** C1. [Add] of a key that is not in the cache creates an entry expiring
    at [now + ttl] with a timer armed for the same instant, and links it
    at the front (most recently used) of the list. When the list is then
    longer than the capacity, the element at the back (least recently
    used) is unlinked, its key leaves the index, the callback is called
    with its key and value, and [Add] returns true; otherwise nothing is
    removed and [Add] returns false. *)
Theorem Add_absent_key w k v now :
  wf w → items (cache w) !! k = None →
  let e := length (heap w) in
  let l := evictList (cache w) in
  ∃ b w', Add k v now w = Ok b w' ∧
    heap w' = heap w ++ [{| key := k; value := v;
                            ttl := Time_Add now (expiry (cache w));
                            timer := NewTimer (expiry (cache w)) now |}] ∧
    b = bool_decide (size (cache w) < Z.of_nat (length l) + 1) ∧
    if b
    then ∃ old kvo, last (e :: l) = Some old ∧ heap w' !! old = Some kvo ∧
           evictList (cache w') = removelast (e :: l) ∧
           items (cache w') = delete (key kvo) (<[k := e]> (items (cache w))) ∧
           calls w' = calls w ++ called w (key kvo) (value kvo)
    else evictList (cache w') = e :: l ∧
         items (cache w') = <[k := e]> (items (cache w)) ∧
         calls w' = calls w.
Proof.
  intros Hwf Hk e l. rewrite Add_absent_eq by done.
  pose proof (inserted_wf w k v now Hwf Hk) as Hwf1.
  destruct (Z.ltb_spec (size (cache w)) (Z.of_nat (S (length (evictList (cache w)))))) as [Hlt|Hge].
  - destruct (last (e :: l)) as [old|] eqn:Hlast;
      [apply last_Some in Hlast as Hl; destruct Hl as [l0 Hl]
      | by apply last_None in Hlast].
    assert (old ∈ evictList (cache (inserted w k v now))) as Hin.
    { change (old ∈ e :: l). rewrite Hl. apply elem_of_app. right. by left. }
    destruct (cons_order _ (proj1 Hwf1) old Hin) as (kvo & Hkvo & _).
    rewrite (removeOldest_snoc (inserted w k v now) l0 old kvo) by done.
    exists true, (removed (inserted w k v now) old kvo).
    split; [done|]. split; [done|].
    split; [symmetry; apply bool_decide_eq_true; unfold l; lia|].
    exists old, kvo. split; [done|]. split; [done|]. split; [|done].
    rewrite (removed_snoc (inserted w k v now) l0 old kvo); [|apply Hwf1|done].
    by rewrite Hl, removelast_last.
  - exists false, (inserted w k v now). split; [done|]. split; [done|].
    split; [symmetry; apply bool_decide_eq_false; unfold l; lia|done].
Qed.

(** C2. [Get] of a key that is not in the cache reports not found and
    changes nothing. For a key in the cache whose expiry lies before
    [now], the entry is unlinked and its key leaves the index, the
    callback is called with the key and the stored value, and [Get]
    reports not found. Otherwise [Get] returns the stored value with
    found = true and the entry becomes the front (most recently used)
    element of the list. *)
Theorem Get_cases w k now :
  wf w →
  let l := evictList (cache w) in
  match items (cache w) !! k with
  | None => Get k now w = Ok (None, false) w
  | Some e =>
      ∃ kv w', heap w !! e = Some kv ∧ key kv = k ∧ heap w' = heap w ∧
        if bool_decide (ttl kv < now)
        then Get k now w = Ok (None, false) w' ∧
             evictList (cache w') = list_Remove e l ∧
             items (cache w') = delete k (items (cache w)) ∧
             calls w' = calls w ++ called w k (value kv)
        else Get k now w = Ok (Some (value kv), true) w' ∧
             evictList (cache w') = e :: list_Remove e l ∧
             items (cache w') = items (cache w) ∧
             calls w' = calls w
  end.
Proof.
  intros Hwf l. destruct (items (cache w) !! k) as [e|] eqn:Hk.
  - destruct (cons_items w (proj1 Hwf) k e Hk) as (Hin & kv & Hkv & Hkey).
    rewrite (Get_present_eq w k now e kv) by done. unfold Time_After.
    exists kv. destruct (Z.ltb_spec (ttl kv) now) as [Hlt|Hge].
    + exists (removed (touched w e) e kv). split; [done|]. split; [done|].
      split; [done|]. rewrite bool_decide_eq_true_2 by done.
      split; [done|]. simpl. split; [apply list_Remove_MoveToFront|].
      split; [by rewrite Hkey|]. unfold called. simpl. by rewrite Hkey.
    + exists (touched w e). split; [done|]. split; [done|]. split; [done|].
      rewrite bool_decide_eq_false_2 by lia.
      split; [done|]. simpl. split; [by apply list_MoveToFront_in|done].
  - by apply Get_absent_eq.
Qed.

(** The refresh of [Add] on a well-formed cache, where the timer of the
    entry is still scheduled: [Add] stores the new value in the entry,
    sets the entry's expiry to [now + ttl], arms its timer again for that
    instant, moves the element to the front of the list and returns
    false. No entry is removed: the index, the other entries, the record
    of callback calls and [Len] are unchanged. *)
Theorem Add_present_key w k v now e :
  wf w → items (cache w) !! k = Some e →
  ∃ w' kv' n,
    Add k v now w = Ok false w' ∧
    heap w' !! e = Some kv' ∧ key kv' = k ∧ value kv' = v ∧
    ttl kv' = Time_Add now (expiry (cache w)) ∧
    active (timer kv') = true ∧
    deadline (timer kv') = Time_Add now (expiry (cache w)) ∧
    (∀ e', e' ≠ e → heap w' !! e' = heap w !! e') ∧
    evictList (cache w') = e :: list_Remove e (evictList (cache w)) ∧
    items (cache w') = items (cache w) ∧
    calls w' = calls w ∧
    Len w = Ok n w ∧ Len w' = Ok n w'.
Proof.
  intros Hwf Hk.
  destruct (cons_items w (proj1 Hwf) k e Hk) as (Hin & kv & Hkv & Hkey).
  pose proof (proj2 Hwf e kv Hin Hkv) as Hact.
  pose proof (lookup_lt_Some _ _ _ Hkv) as Hlt.
  eexists (refreshed w e kv v now), _, _.
  split; [by apply Add_present_eq|]. simpl.
  split; [by apply list_lookup_insert_eq|]. simpl.
  split; [done|]. split; [done|]. split; [done|]. split; [done|]. split; [done|].
  split; [intros e' Hne; by apply list_lookup_insert_ne|].
  split; [by apply list_MoveToFront_in|]. split; [done|]. split; [done|].
  rewrite !Len_eq. split; [done|]. simpl.
  rewrite list_MoveToFront_length; [done|apply Hwf].
Qed.

(** C4. Construction fails for a capacity that is not positive and gives
    no cache; for a positive capacity it gives a cache on which every
    sequence of [Add] calls returns and leaves [Len() <= capacity]. (A
    prefix of a sequence is a sequence, so the bound holds after every
    call.) *)
Theorem capacity_invariant sz exp cb :
  match NewLRUTtl (K := K) (V := V) sz exp cb with
  | inl _ => sz <= 0
  | inr w0 =>
      0 < sz ∧
      ∀ xs, ∃ bs w' n, Adds xs w0 = Ok bs w' ∧ Len w' = Ok n w' ∧ n <= sz
  end.
Proof.
  destruct (NewLRUTtl sz exp cb) as [msg|w0] eqn:Hnew.
  - unfold NewLRUTtl in Hnew. by destruct (Z.leb_spec sz 0).
  - apply NewLRUTtl_wf in Hnew as (Hwf & Hpos & Hs & Hl & _).
    split; [done|]. intros xs.
    destruct (Adds_wf xs w0 Hwf) as (bs & w' & Hrun & _ & (Hs' & _) & Hlen).
    { rewrite Hl. simpl. lia. }
    exists bs, w', (Z.of_nat (length (evictList (cache w')))).
    split; [done|]. split; [apply Len_eq|]. lia.
Qed.

(** C5. In a well-formed cache the index and the list hold the same keys,
    each once, and the map has as many keys as the list has elements;
    every method returns and leaves the cache well formed, hence with the
    same property. The lookups [Peek], [Contains], [GetOldest], [Keys]
    and [Len] return the cache as they found it. [Purge] is taken with
    every order in which the range over the map can visit the keys. *)
Theorem operations_preserve_index w :
  wf w →
  index_matches_order w ∧
  (∀ k v now, ∃ b w', Add k v now w = Ok b w' ∧ wf w' ∧ index_matches_order w') ∧
  (∀ k now, ∃ r w', Get k now w = Ok r w' ∧ wf w' ∧ index_matches_order w') ∧
  (∀ k, ∃ r, Peek k w = Ok r w) ∧
  (∀ k, ∃ b, Contains k w = Ok b w) ∧
  (∀ k, ∃ b w', Remove k w = Ok b w' ∧ wf w' ∧ index_matches_order w') ∧
  (∃ r w', RemoveOldest w = Ok r w' ∧ wf w' ∧ index_matches_order w') ∧
  (∃ r, GetOldest w = Ok r w) ∧
  (∀ ks, range_order w ks →
     ∃ w', Purge_in ks w = Ok tt w' ∧ wf w' ∧ index_matches_order w') ∧
  (∃ w', Purge w = Ok tt w' ∧ wf w' ∧ index_matches_order w') ∧
  (∀ sz, ∃ n w', Resize sz w = Ok n w' ∧ wf w' ∧ index_matches_order w') ∧
  (∃ ks, Keys w = Ok ks w) ∧
  (∃ n, Len w = Ok n w).
Proof.
  intros Hwf. split; [apply consistent_index, Hwf|].
  split. { intros k v now. destruct (Add_wf w k v now Hwf) as (b & w' & ? & Hwf' & _).
           exists b, w'. split; [done|]. split; [done|]. apply consistent_index, Hwf'. }
  split. { intros k now. destruct (Get_wf w k now Hwf) as (r & w' & ? & Hwf').
           exists r, w'. split; [done|]. split; [done|]. apply consistent_index, Hwf'. }
  split. { intros k. by apply Peek_wf. }
  split. { intros k. eexists. apply Contains_eq. }
  split. { intros k. destruct (Remove_wf w k Hwf) as (r & w' & ? & Hwf').
           exists r, w'. split; [done|]. split; [done|]. apply consistent_index, Hwf'. }
  split. { destruct (RemoveOldest_wf w Hwf) as (r & w' & ? & Hwf').
           exists r, w'. split; [done|]. split; [done|]. apply consistent_index, Hwf'. }
  split. { by apply GetOldest_wf. }
  split. { intros ks Hks. destruct (Purge_in_wf w ks Hwf Hks) as (w' & ? & Hwf').
           exists w'. split; [done|]. split; [done|]. apply consistent_index, Hwf'. }
  split. { destruct (Purge_in_wf w _ Hwf (range_order_map_to_list w)) as (w' & ? & Hwf').
           exists w'. split; [done|]. split; [done|]. apply consistent_index, Hwf'. }
  split. { intros sz. destruct (Resize_wf w sz Hwf) as (w' & ? & Hwf' & _).
           eexists _, w'. split; [done|]. split; [done|]. apply consistent_index, Hwf'. }
  split. { eexists. apply Keys_eq, Hwf. }
  eexists. apply Len_eq.
Qed.

(** C6, as the code has it. [Remove] of a key in the cache unlinks its
    element from the list, deletes the key from the index, calls the
    callback with the key and the stored value and returns true; the
    entries, and with them every timer, are left as they were. [Remove]
    of a key that is not in the cache returns false and changes nothing,
    the record of callback calls included. *)
Theorem Remove_cases w k :
  wf w →
  match items (cache w) !! k with
  | Some e =>
      ∃ kv w', heap w !! e = Some kv ∧ key kv = k ∧
        Remove k w = Ok true w' ∧
        evictList (cache w') = list_Remove e (evictList (cache w)) ∧
        (e ∉ evictList (cache w')) ∧
        items (cache w') = delete k (items (cache w)) ∧
        calls w' = calls w ++ called w k (value kv) ∧
        heap w' = heap w
  | None => Remove k w = Ok false w
  end.
Proof.
  intros Hwf. destruct (items (cache w) !! k) as [e|] eqn:Hk.
  - destruct (cons_items w (proj1 Hwf) k e Hk) as (Hin & kv & Hkv & Hkey).
    exists kv, (removed w e kv). split; [done|]. split; [done|].
    split; [by apply Remove_present_eq|]. simpl. split; [done|].
    split; [rewrite list_Remove_elem; intros [? _]; done|].
    split; [by rewrite Hkey|]. split; [by rewrite Hkey|done].
  - by apply Remove_absent_eq.
Qed.

(** C7, as the code has it. [Purge], in whatever order the range visits
    the map, calls the callback once for each entry of the list with its
    key and value, and leaves the list and the index empty: [Len] is 0
    and [Keys] is empty. The entries, and with them every timer, are left
    as they were. *)
Theorem Purge_complete w :
  wf w →
  let post := λ r : result (K := K) (V := V) unit,
    ∃ w' cs, r = Ok tt w' ∧
      calls w' = calls w ++ called_all w cs ∧ cs ≡ₚ live w ∧
      evictList (cache w') = [] ∧ items (cache w') = ∅ ∧
      Len w' = Ok 0 w' ∧ Keys w' = Ok [] w' ∧
      heap w' = heap w in
  (∀ ks, range_order w ks → post (Purge_in ks w)) ∧ post (Purge w).
Proof.
  intros Hwf post.
  assert (∀ ks, range_order w ks → post (Purge_in ks w)) as Hany.
  { intros ks Hks.
    destruct (Purge_in_eq w ks (proj1 Hwf) Hks) as (w' & Hrun & Hh & _ & Hl & Hi & Hc).
    exists w', (omap (purge_call w) ks). split; [done|]. split; [done|].
    split; [by apply purge_calls_perm; [apply Hwf|]|].
    split; [done|]. split; [done|].
    split; [by rewrite Len_eq, Hl|]. split; [|done].
    rewrite Keys_eq by exact (proj1 (empty_wf w' Hl Hi)). by rewrite Hl. }
  split; [done|]. rewrite Purge_eq. apply Hany, range_order_map_to_list.
Qed.

(** C8, as the code has it. For a new capacity that is not negative,
    [Resize] sets the capacity, unlinks elements at the back of the list
    until the list fits, oldest first, calling the callback for each, and
    returns their number, [max(0, Len() - newCapacity)]. The elements left
    are the [newCapacity] nearest the front, whatever their expiry. The
    entries, and with them every timer, are left as they were. *)
Theorem Resize_shrinks w sz :
  wf w → 0 <= sz < 2 ^ 63 →
  let l := evictList (cache w) in
  Z.of_nat (length l) < 2 ^ 63 →
  ∃ w', Resize sz w = Ok (Z.max 0 (Z.of_nat (length l) - sz)) w' ∧
    size (cache w') = sz ∧
    evictList (cache w') = take (Z.to_nat sz) l ∧
    items (cache w') ⊆ items (cache w) ∧ index_matches_order w' ∧
    calls w' = calls w ++ called_all w (reverse (kvs w (drop (Z.to_nat sz) l))) ∧
    Z.max 0 (Z.of_nat (length l) - sz)
      = Z.of_nat (length l) - Z.of_nat (length (evictList (cache w'))) ∧
    heap w' = heap w.
Proof.
  intros Hwf Hsz l Hlen.
  destruct (Resize_wf w sz Hwf) as (w' & Hrun & Hwf' & Hs & _ & _ & Hh & Hl & Hi & Hc).
  rewrite Resize_diff_small in * by done. fold l in Hl, Hc, Hrun.
  set (n := Z.to_nat (Z.max 0 (Z.of_nat (length l) - sz))) in *.
  assert (take (length l - n) l = take (Z.to_nat sz) l) as Htake.
  { destruct (decide (Z.of_nat (length l) <= sz)).
    - rewrite !take_ge; [done|lia|lia].
    - f_equal. lia. }
  assert (drop (length l - n) l = drop (Z.to_nat sz) l) as Hdrop.
  { destruct (decide (Z.of_nat (length l) <= sz)).
    - rewrite !drop_ge; [done|lia|lia].
    - f_equal. lia. }
  exists w'. split; [done|]. split; [done|]. split; [by rewrite Hl|].
  split; [done|]. split; [apply consistent_index, Hwf'|].
  split; [by rewrite Hc, Hdrop|]. split; [|done].
  rewrite Hl, Htake, length_take. lia.
Qed.

(** C9. [Peek] and [Contains] return the cache as they found it: the
    list keeps its order, no entry is removed whatever its expiry (neither
    method reads the clock), and the callback is not called. [Peek]
    returns the stored value with ok = true when the key is in the index
    and ok = false otherwise; [Contains] returns whether it is. *)
Theorem Peek_Contains_pure w k :
  wf w →
  Contains k w = Ok (bool_decide (is_Some (items (cache w) !! k))) w ∧
  match items (cache w) !! k with
  | Some e => ∃ kv, heap w !! e = Some kv ∧ key kv = k ∧
                Peek k w = Ok (Some (value kv), true) w
  | None => Peek k w = Ok (None, false) w
  end.
Proof.
  intros Hwf. split; [apply Contains_eq|].
  destruct (items (cache w) !! k) as [e|] eqn:Hk.
  - destruct (cons_items w (proj1 Hwf) k e Hk) as (Hin & kv & Hkv & Hkey).
    exists kv. split; [done|]. split; [done|]. by apply (Peek_present_eq w k e kv).
  - by apply Peek_absent_eq.
Qed.

(** C10. [Resize] returns for every new capacity, zero and negative ones
    included, and sets it; only [NewLRUTtl] refuses a capacity that is not
    positive. After [Resize(0)] the cache is empty with capacity 0, and
    from then on every [Add] returns true and leaves the cache empty, the
    callback having been called with the key and value just added. *)
Theorem Resize_any_capacity w :
  wf w →
  (∀ sz, ∃ n w', Resize sz w = Ok n w' ∧ size (cache w') = sz ∧ wf w') ∧
  (∀ sz exp cb, sz <= 0 → ∃ msg, NewLRUTtl (K := K) (V := V) sz exp cb = inl msg) ∧
  (Z.of_nat (length (evictList (cache w))) < 2 ^ 63 →
   ∃ n w0, Resize 0 w = Ok n w0 ∧
     evictList (cache w0) = [] ∧ items (cache w0) = ∅ ∧ size (cache w0) = 0 ∧
     ∀ xs, ∃ w', Adds xs w0 = Ok ((λ _, true) <$> xs) w' ∧
       evictList (cache w') = [] ∧ items (cache w') = ∅ ∧
       calls w' = calls w0 ++ called_all w0 ((λ x, (x.1.1, x.1.2)) <$> xs)).
Proof.
  intros Hwf. split; [|split].
  - intros sz. destruct (Resize_wf w sz Hwf) as (w' & Hrun & Hwf' & Hs & _).
    by eexists _, w'.
  - intros sz exp cb Hsz. unfold NewLRUTtl.
    destruct (Z.leb_spec sz 0); [by eexists|lia].
  - intros Hlen.
    destruct (Resize_wf w 0 Hwf) as (w0 & Hrun & Hwf0 & Hs & _ & _ & _ & Hl & _).
    rewrite Resize_diff_small in Hl by (done || lia).
    replace (length (evictList (cache w)) -
             Z.to_nat (Z.max 0 (Z.of_nat (length (evictList (cache w))) - 0)))%nat
      with 0%nat in Hl by lia.
    rewrite take_0 in Hl.
    assert (items (cache w0) = ∅) as Hi.
    { apply map_size_empty_iff. rewrite (consistent_size w0 (proj1 Hwf0)). by rewrite Hl. }
    eexists _, w0. split; [done|]. split; [done|]. split; [done|]. split; [done|].
    intros xs. destruct (Adds_drained xs w0) as (w' & Hadds & (Hl' & Hi' & _) & _ & Hc).
    { by repeat split. }
    by exists w'.
Qed.

(** ** Further properties *)

(** *** The order of the keys *)

Lemma keys_of_app w l1 l2 : keys_of w (l1 ++ l2) = keys_of w l1 ++ keys_of w l2.
Proof. unfold keys_of. apply omap_app. Qed.

Lemma keys_of_reverse w l : keys_of w (reverse l) = reverse (keys_of w l).
Proof.
  induction l as [|x l IH]; [done|].
  rewrite reverse_cons, keys_of_app, IH.
  change (x :: l) with ([x] ++ l). rewrite keys_of_app, reverse_app.
  f_equal. unfold keys_of. simpl. by destruct (heap w !! x).
Qed.

Lemma keys_of_cons w x l kx :
  heap w !! x = Some kx → keys_of w (x :: l) = key kx :: keys_of w l.
Proof. intros Hx. unfold keys_of. simpl. by rewrite Hx. Qed.

Lemma keys_of_ext w w' l :
  (∀ x, x ∈ l → key <$> heap w' !! x = key <$> heap w !! x) →
  keys_of w' l = keys_of w l.
Proof. intros Hext. unfold keys_of. by apply omap_ext_in. Qed.

Lemma keys_of_Remove w e kv l' :
  consistent w → e ∈ evictList (cache w) → heap w !! e = Some kv →
  (∀ x, x ∈ l' → x ∈ evictList (cache w)) →
  keys_of w (list_Remove e l') = filter (λ k', k' ≠ key kv) (keys_of w l').
Proof.
  intros Hc Hin Hkv. induction l' as [|x l' IH]; intros Hsub; [done|].
  destruct (cons_order w Hc x (Hsub x ltac:(by left))) as (kx & Hkx & _).
  assert (keys_of w (list_Remove e l')
          = filter (λ k', k' ≠ key kv) (keys_of w l')) as IH'.
  { apply IH. intros y Hy. apply Hsub. by right. }
  rewrite (keys_of_cons w x l' kx Hkx). unfold list_Remove. rewrite filter_cons.
  fold (list_Remove e l'). destruct (decide (x ≠ e)) as [Hne|Heq].
  - rewrite (keys_of_cons w x _ kx Hkx), IH'. rewrite filter_cons_True; [done|].
    intros Hk. apply Hne.
    apply (consistent_key_inj w x e kx kv); [done|by apply Hsub; left|done..].
  - assert (x = e) as -> by (destruct (decide (x = e)); [done|by destruct Heq]).
    rewrite IH'. rewrite filter_cons_False; [done|].
    intros Hk. apply Hk. congruence.
Qed.

Lemma key_order_rev w :
  key_order w = reverse (keys_of w (evictList (cache w))).
Proof. apply keys_of_reverse. Qed.

Lemma key_order_elem w k :
  consistent w → k ∈ key_order w ↔ is_Some (items (cache w) !! k).
Proof.
  intros Hc. rewrite key_order_rev, elem_of_reverse.
  symmetry. apply (consistent_index w Hc).
Qed.

Lemma key_order_NoDup w : consistent w → NoDup (key_order w).
Proof.
  intros Hc. rewrite key_order_rev, reverse_Permutation.
  apply (consistent_index w Hc).
Qed.

Lemma key_order_length w :
  consistent w → length (key_order w) = length (evictList (cache w)).
Proof.
  intros Hc. rewrite key_order_rev, length_reverse. unfold keys_of.
  apply length_omap_total. intros e Hin.
  destruct (cons_order w Hc e Hin) as (kv & Hkv & _). rewrite Hkv. by eexists.
Qed.

Lemma filter_absent (k : K) (ks : list K) :
  k ∉ ks → filter (λ k', k' ≠ k) ks = ks.
Proof.
  induction ks as [|x ks IH]; intros Hn; [done|].
  apply not_elem_of_cons in Hn as [Hx Hn].
  rewrite filter_cons_True by (by intros ->). by rewrite IH.
Qed.

Lemma key_order_removed w e kv :
  consistent w → e ∈ evictList (cache w) → heap w !! e = Some kv →
  key_order (removed w e kv) = filter (λ k', k' ≠ key kv) (key_order w).
Proof.
  intros Hc Hin Hkv. rewrite !key_order_rev. simpl.
  change (keys_of (removed w e kv)) with (keys_of w).
  rewrite (keys_of_Remove w e kv) by done. by rewrite filter_reverse.
Qed.

Lemma key_order_snoc w l0 x kx :
  evictList (cache w) = l0 ++ [x] → heap w !! x = Some kx →
  key_order w = key kx :: reverse (keys_of w l0).
Proof.
  intros Hl Hx. rewrite key_order_rev, Hl, keys_of_app, reverse_app.
  by rewrite (keys_of_cons w x [] kx Hx).
Qed.

Lemma key_order_removed_last w l0 x kx :
  consistent w → evictList (cache w) = l0 ++ [x] → heap w !! x = Some kx →
  key_order (removed w x kx) = tail (key_order w).
Proof.
  intros Hc Hl Hx. rewrite (key_order_snoc w l0 x kx) by done. simpl.
  rewrite key_order_rev.
  rewrite (removed_snoc w l0 x kx (cons_nodup w Hc) Hl). done.
Qed.

Lemma key_order_touched w e kv :
  consistent w → e ∈ evictList (cache w) → heap w !! e = Some kv →
  key_order (touched w e) = filter (λ k', k' ≠ key kv) (key_order w) ++ [key kv].
Proof.
  intros Hc Hin Hkv. rewrite !key_order_rev. simpl.
  rewrite list_MoveToFront_in by done.
  change (keys_of (touched w e)) with (keys_of w).
  rewrite (keys_of_cons w e _ kv Hkv), reverse_cons.
  rewrite (keys_of_Remove w e kv) by done. by rewrite filter_reverse.
Qed.

Lemma key_order_refreshed w e kv v now :
  consistent w → e ∈ evictList (cache w) → heap w !! e = Some kv →
  key_order (refreshed w e kv v now)
  = filter (λ k', k' ≠ key kv) (key_order w) ++ [key kv].
Proof.
  intros Hc Hin Hkv. rewrite <- (key_order_touched w e kv) by done.
  unfold key_order. simpl. apply keys_of_ext. intros x _. simpl.
  pose proof (lookup_lt_Some _ _ _ Hkv) as Hlt.
  destruct (decide (x = e)) as [->|Hne].
  - rewrite list_lookup_insert_eq by done. by rewrite Hkv.
  - by rewrite list_lookup_insert_ne.
Qed.

Lemma key_order_inserted w k v now :
  consistent w →
  key_order (inserted w k v now) = key_order w ++ [k].
Proof.
  intros Hc. rewrite !key_order_rev. cbn [inserted cache evictList].
  rewrite (keys_of_cons (inserted w k v now) _ _ (new_entry w k v now))
    by (simpl; by rewrite lookup_app_r, Nat.sub_diag).
  rewrite reverse_cons. cbn [new_entry key]. do 2 f_equal.
  apply keys_of_ext. intros x Hin. simpl.
  pose proof (consistent_heap_lt w x Hc Hin). by rewrite lookup_app_l.
Qed.

Lemma Keys_key_order w : consistent w → Keys w = Ok (Some <$> key_order w) w.
Proof. apply Keys_eq. Qed.

(** *** What [Add] leaves under the key *)

Lemma Add_lookup w k v now :
  wf w → 1 <= size (cache w) →
  ∃ b w1 e kv, Add k v now w = Ok b w1 ∧ wf w1 ∧ same_config w w1 ∧
    items (cache w1) !! k = Some e ∧ heap w1 !! e = Some kv ∧
    key kv = k ∧ value kv = v ∧ ttl kv = Time_Add now (expiry (cache w)) ∧
    ∃ cs, calls w1 = calls w ++ cs.
Proof.
  intros Hwf Hsz. destruct (items (cache w) !! k) as [e|] eqn:Hk.
  - destruct (cons_items w (proj1 Hwf) k e Hk) as (Hin & kv & Hkv & Hkey).
    pose proof (proj2 Hwf e kv Hin Hkv) as Hact.
    pose proof (lookup_lt_Some _ _ _ Hkv) as Hlt.
    eexists false, (refreshed w e kv v now), e, _.
    split; [by apply Add_present_eq|]. split; [by eapply refreshed_wf|].
    split; [by repeat split|]. split; [done|]. simpl.
    split; [by apply list_lookup_insert_eq|]. simpl.
    split; [done|]. split; [done|]. split; [done|].
    exists []. by rewrite app_nil_r.
  - rewrite Add_absent_eq by done.
    pose proof (inserted_wf w k v now Hwf Hk) as Hwf1.
    assert (heap (inserted w k v now) !! length (heap w)
            = Some (new_entry w k v now)) as Hnew.
    { simpl. by rewrite lookup_app_r, Nat.sub_diag. }
    destruct (Z.ltb_spec (size (cache w)) (Z.of_nat (S (length (evictList (cache w))))))
      as [Hlt|Hge].
    + destruct (last (evictList (cache w))) as [old|] eqn:Hlast;
        [|apply last_None in Hlast; rewrite Hlast in Hlt; simpl in Hlt; lia].
      pose proof (last_Some_elem_of _ _ Hlast) as Hold.
      pose proof (consistent_heap_lt w old (proj1 Hwf) Hold) as Holdlt.
      apply last_Some in Hlast as [l0 Hl].
      assert (evictList (cache (inserted w k v now))
              = (length (heap w) :: l0) ++ [old]) as Hl1.
      { simpl. by rewrite Hl. }
      assert (old ∈ evictList (cache (inserted w k v now))) as Hin1.
      { rewrite Hl1. apply elem_of_app. right. by left. }
      destruct (cons_order _ (proj1 Hwf1) old Hin1) as (kvo & Hkvo & Hio).
      rewrite (removeOldest_snoc _ _ old kvo Hl1 Hkvo).
      eexists true, _, (length (heap w)), (new_entry w k v now).
      split; [done|]. split; [by apply removed_wf|].
      split; [by repeat split|]. split.
      { simpl. rewrite lookup_delete_ne; [by rewrite lookup_insert_eq|].
        intros Heq. simpl in Hio. rewrite Heq, lookup_insert_eq in Hio.
        injection Hio as Heq'. lia. }
      split; [done|]. split; [done|]. split; [done|]. split; [done|].
      by eexists.
    + eexists false, (inserted w k v now), (length (heap w)), (new_entry w k v now).
      split; [done|]. split; [done|]. split; [by repeat split|].
      split; [simpl; by rewrite lookup_insert_eq|]. split; [done|].
      split; [done|]. split; [done|]. split; [done|].
      exists []. simpl. by rewrite app_nil_r.
Qed.

(** *** The methods never lengthen the list, [Add] apart *)

Lemma removed_length w e kv :
  NoDup (evictList (cache w)) → e ∈ evictList (cache w) →
  S (length (evictList (cache (removed w e kv)))) = length (evictList (cache w)).
Proof. intros Hnd Hin. simpl. by apply list_Remove_length. Qed.






(** *** The goroutine of an entry *)

(** The world after the value waiting in the channel of the timer of the
    entry at [e] was received. *)
Lemma CleanUp_eq w e kv :
  heap w !! e = Some kv → pending (timer kv) = true →
  CleanUp e w =
  match Remove (key kv)
          {| cache := cache w;
             heap := <[e := {| key := key kv; value := value kv; ttl := ttl kv;
                               timer := {| active := active (timer kv);
                                           deadline := deadline (timer kv);
                                           pending := false |} |}]> (heap w);
             calls := calls w |} with
  | Ok _ w' => Ok tt w'
  | Panic => Panic
  | Block => Block
  end.
Proof.
  intros Hkv Hp. pose proof (lookup_lt_Some _ _ _ Hkv) as Hlt.
  unfold CleanUp, bind at 1. unfold load at 1. rewrite Hkv, Hp.
  unfold bind at 1. unfold store at 1. rewrite Hkv.
  unfold bind at 1. unfold load at 1. cbn [heap].
  rewrite list_lookup_insert_eq by done. cbn [key].
  unfold bind, ret. by destruct (Remove _ _).
Qed.

Lemma CleanUp_block w e kv :
  heap w !! e = Some kv → pending (timer kv) = false → CleanUp e w = Block.
Proof. intros Hkv Hp. unfold CleanUp, bind, load, block. by rewrite Hkv, Hp. Qed.

Lemma fire_eq w e kv now :
  heap w !! e = Some kv → active (timer kv) = true → deadline (timer kv) <= now →
  fire e now w =
  Ok tt {| cache := cache w;
           heap := <[e := {| key := key kv; value := value kv; ttl := ttl kv;
                             timer := {| active := false;
                                         deadline := deadline (timer kv);
                                         pending := true |} |}]> (heap w);
           calls := calls w |}.
Proof.
  intros Hkv Ha Hd. unfold fire, bind, load, store, Timer_fire. rewrite Hkv, Ha.
  simpl. destruct (Z.leb_spec (deadline (timer kv)) now); [|lia]. by rewrite Hkv.
Qed.

Lemma Add_absent_lookup w k v now :
  wf w → items (cache w) !! k = None → 1 <= size (cache w) →
  ∃ b w1, Add k v now w = Ok b w1 ∧ wf w1 ∧ same_config w w1 ∧
    heap w1 = heap w ++ [new_entry w k v now] ∧
    items (cache w1) !! k = Some (length (heap w)).
Proof.
  intros Hwf Hk Hsz. rewrite Add_absent_eq by done.
  pose proof (inserted_wf w k v now Hwf Hk) as Hwf1.
  destruct (Z.ltb_spec (size (cache w)) (Z.of_nat (S (length (evictList (cache w))))))
    as [Hlt|Hge].
  - destruct (last (evictList (cache w))) as [old|] eqn:Hlast;
      [|apply last_None in Hlast; rewrite Hlast in Hlt; simpl in Hlt; lia].
    pose proof (last_Some_elem_of _ _ Hlast) as Hold.
    pose proof (consistent_heap_lt w old (proj1 Hwf) Hold) as Holdlt.
    apply last_Some in Hlast as [l0 Hl].
    assert (evictList (cache (inserted w k v now))
            = (length (heap w) :: l0) ++ [old]) as Hl1.
    { simpl. by rewrite Hl. }
    assert (old ∈ evictList (cache (inserted w k v now))) as Hin1.
    { rewrite Hl1. apply elem_of_app. right. by left. }
    destruct (cons_order _ (proj1 Hwf1) old Hin1) as (kvo & Hkvo & Hio).
    rewrite (removeOldest_snoc _ _ old kvo Hl1 Hkvo).
    eexists true, _. split; [done|]. split; [by apply removed_wf|].
    split; [by repeat split|]. split; [done|].
    simpl. rewrite lookup_delete_ne; [by rewrite lookup_insert_eq|].
    intros Heq. simpl in Hio. rewrite Heq, lookup_insert_eq in Hio.
    injection Hio as Heq'. lia.
  - eexists false, (inserted w k v now). split; [done|]. split; [done|].
    split; [by repeat split|]. split; [done|]. simpl. by rewrite lookup_insert_eq.
Qed.

Lemma int_wrap_over z : 2 ^ 63 <= z < 2 ^ 64 → int_wrap z = z - 2 ^ 64.
Proof.
  intros Hz. unfold int_wrap.
  replace (z + 2 ^ 63) with ((z - 2 ^ 63) + 1 * 2 ^ 64) by lia.
  rewrite Z_mod_plus_full, Z.mod_small; lia.
Qed.

(** Consistency does not look at timers. *)
Lemma retimed_consistent w e kv t :
  consistent w → heap w !! e = Some kv →
  consistent {| cache := cache w;
                heap := <[e := {| key := key kv; value := value kv; ttl := ttl kv;
                                  timer := t |}]> (heap w);
                calls := calls w |}.
Proof.
  intros Hc Hkv. pose proof (lookup_lt_Some _ _ _ Hkv) as Hlt. split; simpl.
  - apply Hc.
  - intros k x Hi. destruct (cons_items w Hc k x Hi) as (Hin & kx & Hkx & Hkey).
    split; [done|]. destruct (decide (x = e)) as [->|Hne].
    + rewrite list_lookup_insert_eq by done. eexists. split; [done|].
      simpl. congruence.
    + rewrite list_lookup_insert_ne by done. eauto.
  - intros x Hin. destruct (cons_order w Hc x Hin) as (kx & Hkx & Hi).
    destruct (decide (x = e)) as [->|Hne].
    + rewrite list_lookup_insert_eq by done. eexists. split; [done|].
      simpl. congruence.
    + rewrite list_lookup_insert_ne by done. eauto.
Qed.

(** *** Every entry that left was reported once *)

Lemma kvs_length w l :
  (∀ e, e ∈ l → is_Some (heap w !! e)) → length (kvs w l) = length l.
Proof.
  intros Hl. unfold kvs. apply length_omap_total. intros e Hin.
  destruct (Hl e Hin) as [kv ->]. by eexists.
Qed.

Lemma removed_counted w e kv :
  wf w → e ∈ evictList (cache w) → onEvict (cache w) = true →
  (length (calls w) + length (evictList (cache w)) = length (heap w))%nat →
  (length (calls (removed w e kv)) + length (evictList (cache (removed w e kv)))
   = length (heap (removed w e kv)))%nat.
Proof.
  intros Hwf Hin Ho Hcount.
  pose proof (removed_length w e kv (cons_nodup _ (proj1 Hwf)) Hin) as Hlen.
  simpl in *. unfold called. rewrite Ho, length_app. simpl. lia.
Qed.

Lemma exec_counted (o : op K V) w :
  wf w → onEvict (cache w) = true →
  (length (calls w) + length (evictList (cache w)) = length (heap w))%nat →
  ∃ w', exec o w = Ok tt w' ∧ wf w' ∧ onEvict (cache w') = true ∧
    (length (calls w') + length (evictList (cache w')) = length (heap w'))%nat.
Proof.
  intros Hwf Ho Hcount. pose proof (proj1 Hwf) as Hc.
  destruct o as [k v now|k now|k|k|k| | | | | |sz]; simpl; unfold bind, ret.
  - destruct (items (cache w) !! k) as [e|] eqn:Hk.
    + destruct (cons_items w Hc k e Hk) as (Hin & kv & Hkv & Hkey).
      rewrite (Add_present_eq w k v now e kv Hk Hkv (proj2 Hwf e kv Hin Hkv)).
      eexists. split; [done|]. split; [by eapply refreshed_wf|]. split; [done|].
      simpl. rewrite length_insert, list_MoveToFront_length; [done|apply Hc].
    + rewrite Add_absent_eq by done.
      pose proof (inserted_wf w k v now Hwf Hk) as Hwf1.
      assert (length (calls (inserted w k v now))
              + length (evictList (cache (inserted w k v now)))
              = length (heap (inserted w k v now)))%nat as Hcount1.
      { simpl. rewrite length_app. simpl. lia. }
      destruct (size (cache w) <? Z.of_nat (S (length (evictList (cache w))))).
      * destruct (last (evictList (cache (inserted w k v now)))) as [old|] eqn:Hlast;
          [apply last_Some in Hlast as [l0 Hl] | by apply last_None in Hlast].
        assert (old ∈ evictList (cache (inserted w k v now))) as Hin.
        { rewrite Hl. apply elem_of_app. right. by left. }
        destruct (cons_order _ (proj1 Hwf1) old Hin) as (kvo & Hkvo & _).
        rewrite (removeOldest_snoc _ l0 old kvo Hl Hkvo).
        eexists. split; [done|]. split; [by apply removed_wf|]. split; [done|].
        by apply removed_counted.
      * eexists. split; [done|]. split; [done|]. by split.
  - destruct (items (cache w) !! k) as [e|] eqn:Hk.
    + destruct (cons_items w Hc k e Hk) as (Hin & kv & Hkv & Hkey).
      rewrite (Get_present_eq w k now e kv) by done.
      pose proof (touched_wf w e Hwf) as Hwf1.
      assert (length (calls (touched w e)) + length (evictList (cache (touched w e)))
              = length (heap (touched w e)))%nat as Hcount1.
      { simpl. rewrite list_MoveToFront_length; [done|apply Hc]. }
      assert (e ∈ evictList (cache (touched w e))) as Hin1
        by (simpl; by apply list_MoveToFront_elem).
      destruct (Time_After now (ttl kv)); eexists; (split; [done|]).
      * split; [by apply removed_wf|]. split; [done|]. by apply removed_counted.
      * by split.
    + rewrite Get_absent_eq by done. by exists w.
  - rewrite Contains_eq. by exists w.
  - destruct (Peek_wf w k Hwf) as (r & ->). by exists w.
  - destruct (items (cache w) !! k) as [e|] eqn:Hk.
    + destruct (cons_items w Hc k e Hk) as (Hin & kv & Hkv & Hkey).
      rewrite (Remove_present_eq w k e kv) by done.
      eexists. split; [done|]. split; [by apply removed_wf|]. split; [done|].
      by apply removed_counted.
    + rewrite Remove_absent_eq by done. by exists w.
  - destruct (last (evictList (cache w))) as [x|] eqn:Hlast;
      [apply last_Some in Hlast as [l0 Hl] | apply last_None in Hlast as Hl].
    + assert (x ∈ evictList (cache w)) as Hin.
      { rewrite Hl. apply elem_of_app. right. by left. }
      destruct (cons_order w Hc x Hin) as (kv & Hkv & _).
      rewrite (RemoveOldest_snoc w l0 x kv) by done.
      eexists. split; [done|]. split; [by apply removed_wf|]. split; [done|].
      by apply removed_counted.
    + rewrite RemoveOldest_nil by done. by exists w.
  - destruct (GetOldest_wf w Hwf) as (r & ->). by exists w.
  - rewrite Keys_eq by done. by exists w.
  - rewrite Len_eq. by exists w.
  - rewrite Purge_eq.
    pose proof (range_order_map_to_list w) as Hks.
    destruct (Purge_in_eq w _ Hc Hks) as (w' & -> & Hh & (_ & Ho' & _) & Hl & Hi & Hcalls).
    exists w'. split; [done|]. split; [by apply empty_wf|].
    split; [congruence|]. rewrite Hcalls, Hl, Hh, length_app. unfold called_all.
    rewrite Ho, (Permutation_length (purge_calls_perm w _ Hc Hks)).
    unfold live. rewrite kvs_length; [simpl; lia|].
    intros e Hin. destruct (cons_order w Hc e Hin) as (kv & -> & _). by eexists.
  - destruct (Resize_wf w sz Hwf) as (w' & -> & Hwf' & _ & Ho' & _ & Hh & Hl & _ & Hcalls).
    exists w'. split; [done|]. split; [done|]. split; [congruence|].
    rewrite Hcalls, Hl, Hh, length_app. unfold called_all.
    rewrite Ho, length_reverse, kvs_length, length_take, length_drop; [lia|].
    intros e Hin. apply subseteq_drop in Hin.
    destruct (cons_order w Hc e Hin) as (kv & -> & _). by eexists.
Qed.

Lemma run_counted (os : list (op K V)) : ∀ w,
  wf w → onEvict (cache w) = true →
  (length (calls w) + length (evictList (cache w)) = length (heap w))%nat →
  ∃ w', run os w = Ok tt w' ∧
    (length (calls w') + length (evictList (cache w')) = length (heap w'))%nat.
Proof.
  induction os as [|o os IH]; intros w Hwf Ho Hcount; simpl.
  - by exists w.
  - destruct (exec_counted o w Hwf Ho Hcount) as (w1 & Hrun1 & Hwf1 & Ho1 & Hcount1).
    destruct (IH w1 Hwf1 Ho1 Hcount1) as (w' & Hrun & Hcount').
    exists w'. unfold bind. by rewrite Hrun1.
Qed.

(** *** [Add] on an entry whose timer was delivered *)

Lemma Add_present_delivered_eq w k v now e kv :
  items (cache w) !! k = Some e → heap w !! e = Some kv →
  active (timer kv) = false → pending (timer kv) = true →
  Add k v now w = Ok false (refreshed w e
    {| key := key kv; value := value kv; ttl := ttl kv;
       timer := {| active := false; deadline := deadline (timer kv);
                   pending := false |} |} v now).
Proof.
  intros Hk Hkv Hact Hp. pose proof (lookup_lt_Some _ _ _ Hkv) as Hlt.
  unfold Add, bind at 1. unfold get_cache at 1. rewrite Hk.
  unfold Reset, bind, upd_evictList, store, load, ret.
  cbn [cache heap calls size evictList items onEvict expiry].
  rewrite Hkv. cbn [cache heap calls].
  rewrite list_lookup_insert_eq by done. cbn [cache heap calls key value ttl timer].
  rewrite list_lookup_insert_eq by (by rewrite length_insert).
  cbn [cache heap calls key value ttl timer].
  unfold entry_Reset, Timer_Stop, Timer_Reset. rewrite Hact.
  cbn [cache heap calls key value ttl timer active deadline pending]. rewrite Hp.
  cbn [cache heap calls key value ttl timer active deadline pending].
  rewrite list_lookup_insert_eq by (by rewrite !length_insert).
  rewrite !list_insert_insert_eq. done.
Qed.

Lemma Add_present_block w k v now e kv :
  items (cache w) !! k = Some e → heap w !! e = Some kv →
  active (timer kv) = false → pending (timer kv) = false →
  Add k v now w = Block.
Proof.
  intros Hk Hkv Hact Hp. pose proof (lookup_lt_Some _ _ _ Hkv) as Hlt.
  unfold Add, bind at 1. unfold get_cache at 1. rewrite Hk.
  unfold Reset, bind, upd_evictList, store, load, ret, block.
  cbn [cache heap calls size evictList items onEvict expiry].
  rewrite Hkv. cbn [cache heap calls].
  rewrite list_lookup_insert_eq by done. cbn [cache heap calls key value ttl timer].
  rewrite list_lookup_insert_eq by (by rewrite length_insert).
  cbn [cache heap calls key value ttl timer].
  unfold entry_Reset, Timer_Stop, Timer_Reset. rewrite Hact.
  cbn [cache heap calls key value ttl timer active deadline pending]. by rewrite Hp.
Qed.

(** [CleanUp] is its receive followed by the removal of the key. *)
Lemma CleanUp_receive w e :
  CleanUp e w =
  bind (receive e)
       (λ _, bind (load e) (λ kv, bind (Remove (key kv)) (λ _, ret tt))) w.
Proof.
  unfold CleanUp, receive, bind, load, store, block.
  destruct (heap w !! e) as [kv|] eqn:Hkv; [|done].
  destruct (pending (timer kv)); [|done]. by rewrite Hkv.
Qed.

Lemma receive_eq w e kv :
  heap w !! e = Some kv → pending (timer kv) = true →
  receive e w =
  Ok tt {| cache := cache w;
           heap := <[e := {| key := key kv; value := value kv; ttl := ttl kv;
                             timer := {| active := active (timer kv);
                                         deadline := deadline (timer kv);
                                         pending := false |} |}]> (heap w);
           calls := calls w |}.
Proof.
  intros Hkv Hp. unfold receive, bind, load, store. by rewrite Hkv, Hp, Hkv.
Qed.

(** ** Further properties of the cache *)

(** X1. [Keys] returns the keys of the index, each once and none left
    nil, as many as [Len] counts; a key is among them exactly when
    [Contains] reports it. *)
Theorem Keys_lists_index w :
  wf w →
  ∃ ks, Keys w = Ok (Some <$> ks) w ∧ NoDup ks ∧
    Len w = Ok (Z.of_nat (length ks)) w ∧
    ∀ k, k ∈ ks ↔ Contains k w = Ok true w.
Proof.
  intros [Hc _]. exists (key_order w).
  split; [by apply Keys_key_order|]. split; [by apply key_order_NoDup|].
  split; [by rewrite Len_eq, key_order_length|].
  intros k. rewrite key_order_elem, Contains_eq by done. split.
  - intros Hs. by rewrite bool_decide_eq_true_2.
  - intros [= Hb]. by apply bool_decide_eq_true in Hb.
Qed.

(** X2. [GetOldest] returns the first key of [Keys] with the value
    [Peek] finds under it, and changes nothing; on an empty cache it
    reports ok = false. *)
Theorem GetOldest_first_key w :
  wf w →
  ∃ ks, Keys w = Ok (Some <$> ks) w ∧
    match ks with
    | [] => GetOldest w = Ok (None, None, false) w
    | k :: _ => ∃ v, GetOldest w = Ok (Some k, Some v, true) w ∧
                  Peek k w = Ok (Some v, true) w
    end.
Proof.
  intros [Hc _]. exists (key_order w). split; [by apply Keys_key_order|].
  destruct (last (evictList (cache w))) as [x|] eqn:Hlast;
    [apply last_Some in Hlast as [l0 Hl] | apply last_None in Hlast as Hl].
  - assert (x ∈ evictList (cache w)) as Hin.
    { rewrite Hl. apply elem_of_app. right. by left. }
    destruct (cons_order w Hc x Hin) as (kx & Hkx & Hi).
    rewrite (key_order_snoc w l0 x kx) by done. exists (value kx).
    split; [by eapply GetOldest_snoc|]. by apply (Peek_present_eq w _ x kx).
  - unfold key_order. rewrite Hl. simpl. by apply GetOldest_nil.
Qed.

(** X3. [RemoveOldest] removes the entry [GetOldest] shows: it returns the
    same key and value, calls the callback with them, and leaves the
    other keys in their order; the key is no longer contained. On an
    empty cache it reports ok = false and changes nothing. *)
Theorem RemoveOldest_pops w :
  wf w →
  ∃ ks, Keys w = Ok (Some <$> ks) w ∧
    match ks with
    | [] => RemoveOldest w = Ok (None, None, false) w
    | k :: ks' =>
        ∃ v w', GetOldest w = Ok (Some k, Some v, true) w ∧
          RemoveOldest w = Ok (Some k, Some v, true) w' ∧
          Keys w' = Ok (Some <$> ks') w' ∧
          Contains k w' = Ok false w' ∧
          calls w' = calls w ++ called w k v
    end.
Proof.
  intros Hwf. pose proof (proj1 Hwf) as Hc.
  exists (key_order w). split; [by apply Keys_key_order|].
  destruct (last (evictList (cache w))) as [x|] eqn:Hlast;
    [apply last_Some in Hlast as [l0 Hl] | apply last_None in Hlast as Hl].
  - assert (x ∈ evictList (cache w)) as Hin.
    { rewrite Hl. apply elem_of_app. right. by left. }
    destruct (cons_order w Hc x Hin) as (kx & Hkx & Hi).
    pose proof (key_order_removed_last w l0 x kx Hc Hl Hkx) as Hord.
    rewrite (key_order_snoc w l0 x kx) in * by done. simpl in Hord.
    exists (value kx), (removed w x kx).
    split; [by eapply GetOldest_snoc|]. split; [by eapply RemoveOldest_snoc|].
    split; [|split; [|done]].
    + rewrite Keys_key_order by (by apply removed_consistent). by rewrite Hord.
    + rewrite Contains_eq. simpl. rewrite lookup_delete_eq.
      rewrite bool_decide_eq_false_2; [done|]. by intros [? ?].
  - unfold key_order. rewrite Hl. simpl. by apply RemoveOldest_nil.
Qed.


(** X5. Expiry on read: with a capacity of at least 1, a [Get] later
    than [now + ttl] after [Add] reports not found although [Peek] still
    showed the value, removes the key and calls the callback with the key
    and the value added. *)
Theorem Add_then_Get_expired w k v now now' :
  wf w → 1 <= size (cache w) → Time_Add now (expiry (cache w)) < now' →
  ∃ b w1 w2, Add k v now w = Ok b w1 ∧
    Peek k w1 = Ok (Some v, true) w1 ∧
    Get k now' w1 = Ok (None, false) w2 ∧
    Contains k w2 = Ok false w2 ∧
    calls w2 = calls w1 ++ called w k v.
Proof.
  intros Hwf Hsz Hnow.
  destruct (Add_lookup w k v now Hwf Hsz)
    as (b & w1 & e & kv & Hadd & Hwf1 & (_ & Ho & _) & Hi & Hkv & Hkey & Hv & Httl & _).
  exists b, w1, (removed (touched w1 e) e kv). split; [done|]. split; [|split].
  - rewrite (Peek_present_eq w1 k e kv) by done. by rewrite Hv.
  - rewrite (Get_present_eq w1 k now' e kv) by done. unfold Time_After.
    rewrite Httl. by destruct (Z.ltb_spec (Time_Add now (expiry (cache w))) now'); [|lia].
  - split.
    + rewrite Contains_eq. simpl. rewrite Hkey, lookup_delete_eq.
      rewrite bool_decide_eq_false_2; [done|]. by intros [? ?].
    + simpl. unfold called. simpl. by rewrite Hkey, Hv, Ho.
Qed.

(** X6. [Remove] returns what [Contains] reported. Afterwards the key is
    not contained, [Peek] and [Get] do not find it, a second [Remove]
    returns false and changes nothing, and the other keys keep their
    entries and their order. *)
Theorem Remove_then_absent w k :
  wf w →
  ∃ b w' ks, Remove k w = Ok b w' ∧ Contains k w = Ok b w ∧
    Contains k w' = Ok false w' ∧
    Peek k w' = Ok (None, false) w' ∧
    (∀ now, Get k now w' = Ok (None, false) w') ∧
    Remove k w' = Ok false w' ∧
    (∀ k', k' ≠ k → items (cache w') !! k' = items (cache w) !! k') ∧
    Keys w = Ok (Some <$> ks) w ∧
    Keys w' = Ok (Some <$> filter (λ k', k' ≠ k) ks) w'.
Proof.
  intros Hwf. pose proof (proj1 Hwf) as Hc.
  destruct (items (cache w) !! k) as [e|] eqn:Hk.
  - destruct (cons_items w Hc k e Hk) as (Hin & kv & Hkv & Hkey).
    assert (items (cache (removed w e kv)) !! k = None) as Hk'.
    { simpl. by rewrite Hkey, lookup_delete_eq. }
    exists true, (removed w e kv), (key_order w).
    split; [by apply Remove_present_eq|].
    split; [rewrite Contains_eq, Hk; by rewrite bool_decide_eq_true_2|].
    split; [rewrite Contains_eq, Hk'; rewrite bool_decide_eq_false_2; [done|by intros [? ?]]|].
    split; [by apply Peek_absent_eq|]. split; [intros now; by apply Get_absent_eq|].
    split; [by apply Remove_absent_eq|]. split.
    { intros k' Hne. simpl. rewrite Hkey. by apply lookup_delete_ne. }
    split; [by apply Keys_key_order|].
    rewrite Keys_key_order by (by apply removed_consistent).
    by rewrite (key_order_removed w e kv), Hkey.
  - exists false, w, (key_order w). split; [by apply Remove_absent_eq|].
    assert (Contains k w = Ok false w) as HC.
    { rewrite Contains_eq, Hk. rewrite bool_decide_eq_false_2; [done|by intros [? ?]]. }
    split; [done|]. split; [done|]. split; [by apply Peek_absent_eq|].
    split; [intros now; by apply Get_absent_eq|].
    split; [by apply Remove_absent_eq|]. split; [done|].
    split; [by apply Keys_key_order|]. rewrite Keys_key_order by done.
    rewrite filter_absent; [done|]. rewrite key_order_elem, Hk by done. by intros [? ?].
Qed.

(** X7. A [Get] that finds its key makes it the newest: in [Keys] the
    key moves to the end and the other keys keep their order. Nothing is
    removed and the callback is not called. *)
Theorem Get_marks_newest w k now v w' :
  wf w → Get k now w = Ok (Some v, true) w' →
  ∃ ks, Keys w = Ok (Some <$> ks) w ∧
    Keys w' = Ok (Some <$> (filter (λ k', k' ≠ k) ks ++ [k])) w' ∧
    items (cache w') = items (cache w) ∧ calls w' = calls w.
Proof.
  intros Hwf Hget. pose proof (proj1 Hwf) as Hc.
  exists (key_order w). split; [by apply Keys_key_order|].
  destruct (items (cache w) !! k) as [e|] eqn:Hk.
  - destruct (cons_items w Hc k e Hk) as (Hin & kv & Hkv & Hkey).
    rewrite (Get_present_eq w k now e kv) in Hget by done.
    destruct (Time_After now (ttl kv)); [done|]. injection Hget as _ <-.
    rewrite Keys_key_order by apply (touched_wf w e Hwf).
    by rewrite (key_order_touched w e kv), Hkey.
  - by rewrite Get_absent_eq in Hget.
Qed.

(** X8. Eviction order: [Add] makes its key the newest of [Keys], the
    other keys keeping their order, and when it reports an eviction it
    is the oldest key that left. *)
Theorem Add_key_order w k v now :
  wf w →
  ∃ b w' ks, Add k v now w = Ok b w' ∧ Keys w = Ok (Some <$> ks) w ∧
    Keys w' = Ok (Some <$> (if b then tail (filter (λ k', k' ≠ k) ks ++ [k])
                            else filter (λ k', k' ≠ k) ks ++ [k])) w'.
Proof.
  intros Hwf. pose proof (proj1 Hwf) as Hc.
  destruct (items (cache w) !! k) as [e|] eqn:Hk.
  - destruct (cons_items w Hc k e Hk) as (Hin & kv & Hkv & Hkey).
    pose proof (proj2 Hwf e kv Hin Hkv) as Hact.
    exists false, (refreshed w e kv v now), (key_order w).
    split; [by apply Add_present_eq|]. split; [by apply Keys_key_order|].
    rewrite Keys_key_order by (by eapply refreshed_wf).
    by rewrite (key_order_refreshed w e kv), Hkey.
  - rewrite Add_absent_eq by done.
    pose proof (inserted_wf w k v now Hwf Hk) as Hwf1.
    assert (filter (λ k', k' ≠ k) (key_order w) = key_order w) as Hf.
    { apply filter_absent. rewrite key_order_elem, Hk by done. by intros [? ?]. }
    pose proof (key_order_inserted w k v now Hc) as Hins.
    destruct (size (cache w) <? Z.of_nat (S (length (evictList (cache w))))).
    + destruct (last (evictList (cache (inserted w k v now)))) as [old|] eqn:Hlast;
        [apply last_Some in Hlast as [l0 Hl] | by apply last_None in Hlast].
      assert (old ∈ evictList (cache (inserted w k v now))) as Hin.
      { rewrite Hl. apply elem_of_app. right. by left. }
      destruct (cons_order _ (proj1 Hwf1) old Hin) as (kvo & Hkvo & _).
      rewrite (removeOldest_snoc _ l0 old kvo Hl Hkvo).
      exists true, (removed (inserted w k v now) old kvo), (key_order w).
      split; [done|]. split; [by apply Keys_key_order|].
      rewrite Keys_key_order by (apply removed_consistent; [apply Hwf1|done..]).
      by rewrite (key_order_removed_last _ l0 old kvo (proj1 Hwf1) Hl Hkvo), Hins, Hf.
    + exists false, (inserted w k v now), (key_order w).
      split; [done|]. split; [by apply Keys_key_order|].
      rewrite Keys_key_order by apply Hwf1. by rewrite Hins, Hf.
Qed.

(** X9. [Resize] to a negative capacity removes every entry, calling the
    callback for each from the oldest to the newest, and returns
    [Len() - size], which is more than the number of entries removed. *)
Theorem Resize_negative_empties w sz :
  wf w → sz < 0 →
  let n := Z.of_nat (length (evictList (cache w))) in
  n - sz < 2 ^ 63 →
  ∃ w', Resize sz w = Ok (n - sz) w' ∧ n < n - sz ∧
    size (cache w') = sz ∧
    evictList (cache w') = [] ∧ items (cache w') = ∅ ∧
    calls w' = calls w ++ called_all w (reverse (live w)).
Proof.
  intros Hwf Hsz n Hn.
  destruct (Resize_wf w sz Hwf) as (w' & Hrun & Hwf' & Hs & _ & _ & _ & Hl & _ & Hc).
  assert (Resize_diff w sz = n - sz) as Hd.
  { unfold Resize_diff, int_sub. fold n. rewrite int_wrap_small by lia.
    destruct (Z.ltb_spec (n - sz) 0); [lia|done]. }
  rewrite Hd in *.
  replace (length (evictList (cache w)) - Z.to_nat (n - sz))%nat with 0%nat in *
    by (unfold n; lia).
  rewrite take_0 in Hl. rewrite drop_0 in Hc.
  exists w'. split; [done|]. split; [lia|]. split; [done|]. split; [done|].
  split; [|done]. apply map_size_empty_iff.
  rewrite (consistent_size w' (proj1 Hwf')). by rewrite Hl.
Qed.

(** X10. When [Len() - size] does not fit an [int], [Resize] removes
    nothing and returns 0: the cache keeps all its entries under a
    negative capacity. *)
Theorem Resize_overflow_keeps_all w sz :
  wf w → - 2 ^ 63 <= sz →
  let n := Z.of_nat (length (evictList (cache w))) in
  n < 2 ^ 63 → 2 ^ 63 <= n - sz →
  ∃ w', Resize sz w = Ok 0 w' ∧ size (cache w') = sz ∧
    evictList (cache w') = evictList (cache w) ∧
    items (cache w') = items (cache w) ∧
    calls w' = calls w ∧
    size (cache w') < Z.of_nat (length (evictList (cache w'))).
Proof.
  intros Hwf Hsz n Hn Hover.
  assert (Resize_diff w sz = 0) as Hd.
  { unfold Resize_diff, int_sub. fold n. rewrite int_wrap_over by lia.
    destruct (Z.ltb_spec (n - sz - 2 ^ 64) 0); [done|lia]. }
  exists (resized w sz). rewrite Resize_eq, Hd. simpl. unfold ret.
  split; [done|]. split; [done|]. split; [done|]. split; [done|]. split; [done|].
  fold n. lia.
Qed.

(** X11. The goroutine of an entry blocks until the runtime has
    delivered the entry's timer. Then it removes whichever entry the
    index holds under the entry's key, calling the callback with that
    entry's value; when the key is not in the index it changes neither
    the list nor the index and calls nothing. *)
Theorem CleanUp_removes_by_key w e kv :
  consistent w → heap w !! e = Some kv →
  if pending (timer kv)
  then ∃ w', CleanUp e w = Ok tt w' ∧
         items (cache w') = delete (key kv) (items (cache w)) ∧
         match items (cache w) !! key kv with
         | Some e1 => ∃ kv1, heap w !! e1 = Some kv1 ∧
             evictList (cache w') = list_Remove e1 (evictList (cache w)) ∧
             calls w' = calls w ++ called w (key kv) (value kv1)
         | None => evictList (cache w') = evictList (cache w) ∧
             calls w' = calls w
         end
  else CleanUp e w = Block.
Proof.
  intros Hc Hkv. destruct (pending (timer kv)) eqn:Hp;
    [|by apply (CleanUp_block w e kv)].
  pose proof (lookup_lt_Some _ _ _ Hkv) as Hlt.
  rewrite (CleanUp_eq w e kv) by done.
  match goal with |- context [Remove _ ?x] => set (wd := x) end.
  destruct (items (cache w) !! key kv) as [e1|] eqn:Hi.
  - destruct (cons_items w Hc _ e1 Hi) as (Hin & kv1 & Hkv1 & Hkey).
    destruct (decide (e1 = e)) as [->|Hne].
    + assert (kv1 = kv) as -> by congruence.
      assert (heap wd !! e = Some {| key := key kv; value := value kv; ttl := ttl kv;
                timer := {| active := active (timer kv);
                            deadline := deadline (timer kv);
                            pending := false |} |}) as Hd
        by (by apply list_lookup_insert_eq).
      rewrite (Remove_present_eq wd (key kv) e _ Hi Hd).
      eexists. split; [done|]. split; [done|]. by exists kv.
    + assert (heap wd !! e1 = Some kv1) as Hd
        by (simpl; by rewrite list_lookup_insert_ne).
      rewrite (Remove_present_eq wd (key kv) e1 kv1 Hi Hd).
      eexists. split; [done|]. simpl. split; [by rewrite Hkey|].
      exists kv1. split; [done|]. split; [done|]. unfold called. simpl. by rewrite Hkey.
  - rewrite (Remove_absent_eq wd) by done. eexists. split; [done|]. simpl.
    split; [|done]. symmetry. by apply delete_id.
Qed.

(** X12. No removal stops a timer, and the goroutine removes by key: when
    a key is removed and added again (capacity at least 1), the goroutine
    of the old entry, once the old timer is delivered, removes the new
    entry and calls the callback with the new value, whatever the new
    entry's expiry. *)
Theorem stale_timer_removes_new_entry w k e0 kv0 v' now now2 :
  wf w → items (cache w) !! k = Some e0 → heap w !! e0 = Some kv0 →
  1 <= size (cache w) → deadline (timer kv0) <= now2 →
  ∃ w1 b w2 w3 w4,
    Remove k w = Ok true w1 ∧ Add k v' now w1 = Ok b w2 ∧
    Contains k w2 = Ok true w2 ∧ Peek k w2 = Ok (Some v', true) w2 ∧
    fire e0 now2 w2 = Ok tt w3 ∧ CleanUp e0 w3 = Ok tt w4 ∧
    Contains k w4 = Ok false w4 ∧
    calls w4 = calls w2 ++ called w k v'.
Proof.
  intros Hwf Hk Hkv0 Hsz Hdue. pose proof (proj1 Hwf) as Hc.
  destruct (cons_items w Hc k e0 Hk) as (Hin & kv & Hkv & Hkey).
  assert (kv = kv0) as -> by congruence. clear Hkv.
  pose proof (proj2 Hwf e0 kv0 Hin Hkv0) as Hact.
  pose proof (lookup_lt_Some _ _ _ Hkv0) as Hlt.
  pose proof (removed_wf w e0 kv0 Hwf Hin Hkv0) as Hwf1.
  assert (items (cache (removed w e0 kv0)) !! k = None) as Hk1.
  { simpl. by rewrite Hkey, lookup_delete_eq. }
  destruct (Add_absent_lookup (removed w e0 kv0) k v' now Hwf1 Hk1 Hsz)
    as (b & w2 & Hadd & Hwf2 & (_ & Ho & _) & Hh2 & Hi2).
  simpl in Hh2, Hi2, Ho.
  assert (heap w2 !! e0 = Some kv0) as Hkv0'.
  { rewrite Hh2. by apply lookup_app_l_Some. }
  assert (heap w2 !! length (heap w)
          = Some (new_entry (removed w e0 kv0) k v' now)) as Hnew.
  { rewrite Hh2. by rewrite lookup_app_r, Nat.sub_diag. }
  assert (e0 < length (heap w2))%nat as Hlt2 by (by eapply lookup_lt_Some).
  set (kvf := {| key := key kv0; value := value kv0; ttl := ttl kv0;
                 timer := {| active := false; deadline := deadline (timer kv0);
                             pending := true |} |}).
  set (w3 := {| cache := cache w2; heap := <[e0 := kvf]> (heap w2);
                calls := calls w2 |}).
  assert (heap w3 !! e0 = Some kvf) as Hkvf by (by apply list_lookup_insert_eq).
  eexists (removed w e0 kv0), b, w2, w3, _.
  split; [by apply Remove_present_eq|]. split; [done|].
  split; [rewrite Contains_eq, Hi2; by rewrite bool_decide_eq_true_2|].
  split; [by rewrite (Peek_present_eq w2 k _ _ Hi2 Hnew)|].
  split; [by apply (fire_eq w2 e0 kv0)|].
  rewrite (CleanUp_eq w3 e0 kvf Hkvf eq_refl).
  cbn [kvf w3 key value ttl timer active deadline pending heap cache calls].
  rewrite list_insert_insert_eq, Hkey.
  match goal with |- context [Remove _ ?x] => set (wd := x) end.
  assert (heap wd !! length (heap w)
          = Some (new_entry (removed w e0 kv0) k v' now)) as Hd
    by (simpl; by rewrite list_lookup_insert_ne by lia).
  rewrite (Remove_present_eq wd k (length (heap w)) _ Hi2 Hd).
  split; [done|]. split.
  - rewrite Contains_eq. simpl. rewrite lookup_delete_eq.
    rewrite bool_decide_eq_false_2; [done|]. by intros [? ?].
  - simpl. unfold called. simpl. by rewrite Ho.
Qed.


(** X14. [Add] on a key whose timer the runtime has already delivered:
    while the value still waits in the channel, [Add] takes it, arms the
    timer again and returns false, and the goroutine of the entry goes on
    waiting; once the goroutine has taken the value, the receive in
    [Reset] finds nothing and [Add] never returns. *)
Theorem Add_after_delivery w k v now e kv :
  items (cache w) !! k = Some e → heap w !! e = Some kv →
  active (timer kv) = false →
  if pending (timer kv)
  then ∃ w' kv', Add k v now w = Ok false w' ∧
         heap w' !! e = Some kv' ∧ value kv' = v ∧
         ttl kv' = Time_Add now (expiry (cache w)) ∧
         timer kv' = {| active := true;
                        deadline := Time_Add now (expiry (cache w));
                        pending := false |} ∧
         items (cache w') = items (cache w) ∧ calls w' = calls w ∧
         CleanUp e w' = Block
  else Add k v now w = Block.
Proof.
  intros Hk Hkv Hact. pose proof (lookup_lt_Some _ _ _ Hkv) as Hlt.
  destruct (pending (timer kv)) eqn:Hp;
    [|by apply (Add_present_block w k v now e kv)].
  eexists _, _. split; [by apply (Add_present_delivered_eq w k v now e kv)|].
  simpl. split; [by apply list_lookup_insert_eq|]. simpl.
  split; [done|]. split; [done|]. split; [done|]. split; [done|]. split; [done|].
  eapply CleanUp_block; [simpl; by apply list_lookup_insert_eq|done].
Qed.

(** X15. With a callback given, after every sequence of calls on the
    cache [NewLRUTtl] returns, the number of calls made to the callback
    plus [Len()] is the number of entries [Add] created. *)
Theorem callback_accounting sz exp w0 (os : list (op K V)) :
  NewLRUTtl sz exp true = inr w0 →
  ∃ w' n, run os w0 = Ok tt w' ∧ Len w' = Ok n w' ∧
    Z.of_nat (length (calls w')) + n = Z.of_nat (length (heap w')).
Proof.
  intros Hnew.
  apply NewLRUTtl_wf in Hnew as (Hwf & _ & _ & Hl & _ & Ho & _ & Hh & Hc).
  destruct (run_counted os w0 Hwf Ho) as (w' & Hrun & Hcount).
  { by rewrite Hl, Hh, Hc. }
  exists w', (Z.of_nat (length (evictList (cache w')))).
  split; [done|]. split; [apply Len_eq|]. lia.
Qed.

End Properties.

Example demo0_new : NewLRUTtl 2 100 true = inr demo0.
Proof. reflexivity. Qed.

Example demo_order : evictList (cache demo) = [1%nat; 0%nat].
Proof. vm_compute. reflexivity. Qed.

Example demo_heap :
  heap demo =
  [ {| key := "A"%string; value := 1; ttl := 100;
       timer := {| active := true; deadline := 100; pending := false |} |};
    {| key := "B"%string; value := 2; ttl := 101;
       timer := {| active := true; deadline := 101; pending := false |} |} ].
Proof. vm_compute. reflexivity. Qed.

Example demo_index :
  items (cache demo) !! "A"%string = Some 0%nat ∧
  items (cache demo) !! "B"%string = Some 1%nat ∧
  items (cache demo) !! "C"%string = None.
Proof. vm_compute. by repeat split. Qed.

Lemma after_Add_wf (w : world string Z) k v now :
  wf w → wf (after (Add k v now) w).
Proof.
  intros Hwf. destruct (Add_wf w k v now Hwf) as (b & w' & Hadd & Hwf' & _).
  unfold after. by rewrite Hadd.
Qed.

Lemma demo_wf : wf demo.
Proof. do 2 apply after_Add_wf. by apply empty_wf. Qed.

(** ** The claims at work on [demo] *)

Lemma Add_absent_key_witness :
  wf demo ∧ items (cache demo) !! "C"%string = None ∧
  ∃ b w', Add "C"%string 3 2 demo = Ok b w' ∧
    b = bool_decide (size (cache demo) < Z.of_nat (length (evictList (cache demo))) + 1).
Proof.
  split; [exact demo_wf|]. split; [exact (proj2 (proj2 demo_index))|].
  destruct (Add_absent_key demo "C"%string 3 2 demo_wf (proj2 (proj2 demo_index)))
    as (b & w' & Hadd & _ & Hb & _).
  exists b, w'. split; [exact Hadd | exact Hb].
Defined.

Lemma Get_cases_witness :
  wf demo ∧
  ∃ kv w', heap demo !! 0%nat = Some kv ∧
    Get "A"%string 50 demo = Ok (Some (value kv), true) w' ∧
    evictList (cache w') = 0%nat :: list_Remove 0%nat (evictList (cache demo)).
Proof.
  split; [exact demo_wf|].
  pose proof (Get_cases demo "A"%string 50 demo_wf) as Hget.
  cbv zeta in Hget. rewrite (proj1 demo_index) in Hget.
  destruct Hget as (kv & w' & Hkv & _ & _ & Hif).
  exists kv, w'. split; [exact Hkv|].
  rewrite demo_heap in Hkv. injection Hkv as <-.
  rewrite bool_decide_eq_false_2 in Hif by (simpl; lia).
  destruct Hif as (Hget & Hl & _). split; [exact Hget | exact Hl].
Defined.

Lemma Add_present_key_witness :
  wf demo ∧ items (cache demo) !! "A"%string = Some 0%nat ∧
  ∃ w', Add "A"%string 7 60 demo = Ok false w' ∧
    evictList (cache w') = 0%nat :: list_Remove 0%nat (evictList (cache demo)) ∧
    calls w' = calls demo.
Proof.
  split; [exact demo_wf|]. split; [exact (proj1 demo_index)|].
  destruct (Add_present_key demo "A"%string 7 60 0%nat demo_wf (proj1 demo_index))
    as (w' & kv' & n & Hadd & _ & _ & _ & _ & _ & _ & _ & Hl & _ & Hc & _).
  exists w'. split; [exact Hadd|]. split; [exact Hl | exact Hc].
Defined.

Lemma operations_preserve_index_witness :
  wf demo ∧ index_matches_order demo ∧
  ∃ b w', Remove "A"%string demo = Ok b w' ∧ index_matches_order w'.
Proof.
  split; [exact demo_wf|].
  destruct (operations_preserve_index demo demo_wf)
    as (Hidx & _ & _ & _ & _ & Hrem & _).
  split; [exact Hidx|].
  destruct (Hrem "A"%string) as (b & w' & Hrun & _ & Hidx').
  exists b, w'. split; [exact Hrun | exact Hidx'].
Defined.

Lemma Remove_cases_witness :
  wf demo ∧
  ∃ kv w', heap demo !! 0%nat = Some kv ∧
    Remove "A"%string demo = Ok true w' ∧
    calls w' = calls demo ++ called demo "A"%string (value kv) ∧
    heap w' = heap demo.
Proof.
  split; [exact demo_wf|].
  pose proof (Remove_cases demo "A"%string demo_wf) as Hrem.
  rewrite (proj1 demo_index) in Hrem.
  destruct Hrem as (kv & w' & Hkv & _ & Hrun & _ & _ & _ & Hc & Hh).
  exists kv, w'. split; [exact Hkv|]. split; [exact Hrun|].
  split; [exact Hc | exact Hh].
Defined.

Lemma Purge_complete_witness :
  wf demo ∧
  ∃ w' cs, Purge demo = Ok tt w' ∧
    calls w' = calls demo ++ called_all demo cs ∧ cs ≡ₚ live demo ∧
    Keys w' = Ok [] w' ∧ heap w' = heap demo.
Proof.
  split; [exact demo_wf|].
  destruct (Purge_complete demo demo_wf) as (_ & w' & cs & Hrun & Hc & Hp & _ & _ & _ & Hk & Hh).
  exists w', cs. split; [exact Hrun|]. split; [exact Hc|]. split; [exact Hp|].
  split; [exact Hk | exact Hh].
Defined.

Lemma Resize_shrinks_witness :
  wf demo ∧ 0 <= 1 < 2 ^ 63 ∧
  Z.of_nat (length (evictList (cache demo))) < 2 ^ 63 ∧
  ∃ w', Resize 1 demo
        = Ok (Z.max 0 (Z.of_nat (length (evictList (cache demo))) - 1)) w' ∧
    evictList (cache w') = take 1 (evictList (cache demo)) ∧
    heap w' = heap demo.
Proof.
  assert (0 <= 1 < 2 ^ 63) as Hsz by lia.
  assert (Z.of_nat (length (evictList (cache demo))) < 2 ^ 63) as Hlen
    by (rewrite demo_order; simpl; lia).
  split; [exact demo_wf|]. split; [exact Hsz|]. split; [exact Hlen|].
  destruct (Resize_shrinks demo 1 demo_wf Hsz Hlen)
    as (w' & Hrun & _ & Hl & _ & _ & _ & _ & Hh).
  exists w'. split; [exact Hrun|]. split; [exact Hl | exact Hh].
Defined.

Lemma Peek_Contains_pure_witness :
  wf demo ∧
  Contains "A"%string demo
  = Ok (bool_decide (is_Some (items (cache demo) !! "A"%string))) demo ∧
  ∃ kv, heap demo !! 0%nat = Some kv ∧
    Peek "A"%string demo = Ok (Some (value kv), true) demo.
Proof.
  split; [exact demo_wf|].
  destruct (Peek_Contains_pure demo "A"%string demo_wf) as (Hc & Hp).
  split; [exact Hc|]. rewrite (proj1 demo_index) in Hp.
  destruct Hp as (kv & Hkv & _ & Hpeek). exists kv. split; [exact Hkv | exact Hpeek].
Defined.

Lemma Resize_any_capacity_witness :
  wf demo ∧
  (∃ n w', Resize (-1) demo = Ok n w' ∧ size (cache w') = -1) ∧
  (∃ msg, NewLRUTtl (K := string) (V := Z) 0 100 true = inl msg) ∧
  ∃ n w0, Resize 0 demo = Ok n w0 ∧ evictList (cache w0) = [] ∧
    ∃ w', Adds [("C"%string, 3, 2); ("D"%string, 4, 3)] w0 = Ok [true; true] w' ∧
      evictList (cache w') = [] ∧ items (cache w') = ∅.
Proof.
  split; [exact demo_wf|].
  destruct (Resize_any_capacity demo demo_wf) as (Hres & Hnew & Hzero).
  split; [|split].
  - destruct (Hres (-1)) as (n & w' & Hrun & Hs & _).
    exists n, w'. split; [exact Hrun | exact Hs].
  - apply Hnew. lia.
  - destruct Hzero as (n & w0 & Hrun & Hl & _ & _ & Hadds).
    { rewrite demo_order. simpl. lia. }
    exists n, w0. split; [exact Hrun|]. split; [exact Hl|].
    destruct (Hadds [("C"%string, 3, 2); ("D"%string, 4, 3)])
      as (w' & Hrun' & Hl' & Hi' & _).
    exists w'. split; [exact Hrun'|]. split; [exact Hl' | exact Hi'].
Defined.

(** ** Where the code departs from the specification *)

(** [Remove("A")] on [demo] leaves the timer of the removed entry armed. *)
Lemma Remove_counterexample : ¬ Remove_as_stated demo "A"%string.
Proof.
  unfold Remove_as_stated. rewrite (proj1 demo_index).
  intros (kv & w' & Hkv & Hrun & (kv' & Hkv' & Hact) & _).
  rewrite (Remove_present_eq demo "A"%string 0%nat kv (proj1 demo_index) Hkv) in Hrun.
  injection Hrun as <-. simpl in Hkv'.
  rewrite demo_heap in Hkv'. injection Hkv' as <-. discriminate Hact.
Qed.

(** [Purge()] on [demo] leaves the timers of both entries armed. *)
Lemma Purge_counterexample : ¬ Purge_as_stated demo.
Proof.
  intros (w' & cs & Hrun & _ & _ & Htimers & _).
  destruct (Purge_in_eq demo _ (proj1 demo_wf) (range_order_map_to_list demo))
    as (w1 & Hrun1 & Hh & _).
  rewrite Purge_eq, Hrun1 in Hrun. injection Hrun as <-.
  destruct (Htimers 0%nat) as (kv' & Hkv' & Hact).
  { rewrite demo_order. apply elem_of_cons. right. by left. }
  rewrite Hh, demo_heap in Hkv'. injection Hkv' as <-. discriminate Hact.
Qed.

(** [Resize(-1)] on [demo], which holds two entries, returns 3. *)
Example Resize_negative :
  ∃ w', Resize (-1) demo = Ok 3 w' ∧ size (cache w') = -1 ∧
    evictList (cache w') = [] ∧ heap w' = heap demo.
Proof.
  destruct (Resize_wf demo (-1) demo_wf)
    as (w' & Hrun & _ & Hs & _ & _ & Hh & Hl & _).
  assert (Resize_diff demo (-1) = 3) as Hd by (vm_compute; reflexivity).
  rewrite Hd in *. rewrite demo_order in Hl. simpl in Hl.
  exists w'. by repeat split.
Qed.

(** [Resize(-1)] on [demo] returns 3 for 2 evicted entries, and leaves
    their timers armed. *)
Lemma Resize_counterexample : ¬ Resize_as_stated demo (-1).
Proof.
  intros (n & w' & Hrun & _ & Hl & _ & _ & Hn & Hcount).
  rewrite Hl, demo_order in Hcount. rewrite demo_order in Hn. simpl in *. lia.
Qed.

(** The timers, in the same run: the evicted entries keep theirs armed. *)
Example Resize_timers_armed :
  ∀ n w', Resize 1 demo = Ok n w' →
    (0%nat ∉ evictList (cache w')) ∧ ¬ timer_stopped w' 0%nat.
Proof.
  intros n w' Hrun.
  destruct (Resize_wf demo 1 demo_wf)
    as (w1 & Hrun1 & _ & _ & _ & _ & Hh & Hl & _).
  rewrite Hrun1 in Hrun. injection Hrun as Hn Hw. subst n w'.
  assert (Resize_diff demo 1 = 1) as Hd by (vm_compute; reflexivity).
  rewrite Hd, demo_order in Hl. simpl in Hl. rewrite Hl.
  split; [by intros Hin%list_elem_of_singleton|].
  intros (kv & Hkv & Hact). rewrite Hh, demo_heap in Hkv.
  injection Hkv as <-. discriminate Hact.
Qed.

(** A new capacity so negative that [Len() - size] wraps around asks for
    no removal at all. *)
Example Resize_wraps : Resize_diff demo (- 2 ^ 63) = 0.
Proof. vm_compute. reflexivity. Qed.

(** Outside well-formed caches: once the runtime has fired an entry's
    timer and the waiting goroutine has taken the value from its channel,
    the receive in [Reset] has nothing to take. *)
Example Reset_after_fire d now t :
  entry_Reset d now {| active := false; deadline := t; pending := false |} = None.
Proof. reflexivity. Qed.

(** ** The further properties at work on [demo] *)

Example demo_config : size (cache demo) = 2 ∧ expiry (cache demo) = 100.
Proof. vm_compute. by split. Qed.

Example demo_entry_A :
  heap demo !! 0%nat =
  Some {| key := "A"%string; value := 1; ttl := 100;
          timer := {| active := true; deadline := 100; pending := false |} |}.
Proof. by rewrite demo_heap. Qed.

Example demo_Get_A :
  Get "A"%string 50 demo = Ok (Some 1, true) (touched demo 0%nat).
Proof. exact (Get_present_eq demo "A"%string 50 0%nat _ (proj1 demo_index) demo_entry_A). Qed.

Example demo_fired_eq :
  demo_fired =
  {| cache := cache demo;
     heap := <[0%nat := {| key := "A"%string; value := 1; ttl := 100;
                           timer := {| active := false; deadline := 100;
                                       pending := true |} |}]> (heap demo);
     calls := calls demo |}.
Proof.
  unfold demo_fired, after.
  by rewrite (fire_eq demo 0%nat _ 100 demo_entry_A eq_refl ltac:(simpl; lia)).
Qed.

Lemma demo_fired_consistent : consistent demo_fired.
Proof.
  rewrite demo_fired_eq.
  exact (retimed_consistent demo 0%nat _ _ (proj1 demo_wf) demo_entry_A).
Qed.

Example demo_fired_entry_A :
  heap demo_fired !! 0%nat =
  Some {| key := "A"%string; value := 1; ttl := 100;
          timer := {| active := false; deadline := 100; pending := true |} |}.
Proof. by rewrite demo_fired_eq, demo_heap. Qed.

Lemma Keys_lists_index_witness :
  wf demo ∧
  ∃ ks, Keys demo = Ok (Some <$> ks) demo ∧ NoDup ks ∧
    Len demo = Ok (Z.of_nat (length ks)) demo.
Proof.
  split; [exact demo_wf|].
  destruct (Keys_lists_index demo demo_wf) as (ks & Hk & Hnd & Hlen & _).
  exists ks. split; [exact Hk|]. split; [exact Hnd | exact Hlen].
Defined.

Lemma GetOldest_first_key_witness :
  wf demo ∧
  ∃ ks, Keys demo = Ok (Some <$> ks) demo ∧
    match ks with
    | [] => GetOldest demo = Ok (None, None, false) demo
    | k :: _ => ∃ v, GetOldest demo = Ok (Some k, Some v, true) demo ∧
                  Peek k demo = Ok (Some v, true) demo
    end.
Proof. split; [exact demo_wf | exact (GetOldest_first_key demo demo_wf)]. Defined.

Lemma RemoveOldest_pops_witness :
  wf demo ∧
  ∃ ks, Keys demo = Ok (Some <$> ks) demo ∧
    match ks with
    | [] => RemoveOldest demo = Ok (None, None, false) demo
    | k :: ks' =>
        ∃ v w', GetOldest demo = Ok (Some k, Some v, true) demo ∧
          RemoveOldest demo = Ok (Some k, Some v, true) w' ∧
          Keys w' = Ok (Some <$> ks') w' ∧
          Contains k w' = Ok false w' ∧
          calls w' = calls demo ++ called demo k v
    end.
Proof. split; [exact demo_wf | exact (RemoveOldest_pops demo demo_wf)]. Defined.


Lemma Add_then_Get_expired_witness :
  wf demo ∧ 1 <= size (cache demo) ∧ Time_Add 10 (expiry (cache demo)) < 500 ∧
  ∃ b w1 w2, Add "C"%string 3 10 demo = Ok b w1 ∧
    Get "C"%string 500 w1 = Ok (None, false) w2 ∧
    calls w2 = calls w1 ++ called demo "C"%string 3.
Proof.
  assert (1 <= size (cache demo)) as Hsz
    by (rewrite (proj1 demo_config); lia).
  assert (Time_Add 10 (expiry (cache demo)) < 500) as Hnow
    by (rewrite (proj2 demo_config); unfold Time_Add; lia).
  split; [exact demo_wf|]. split; [exact Hsz|]. split; [exact Hnow|].
  destruct (Add_then_Get_expired demo "C"%string 3 10 500 demo_wf Hsz Hnow)
    as (b & w1 & w2 & Hadd & _ & Hget & _ & Hc).
  exists b, w1, w2. split; [exact Hadd|]. split; [exact Hget | exact Hc].
Defined.

Lemma Remove_then_absent_witness :
  wf demo ∧
  ∃ b w', Remove "A"%string demo = Ok b w' ∧
    Contains "A"%string w' = Ok false w' ∧
    Remove "A"%string w' = Ok false w'.
Proof.
  split; [exact demo_wf|].
  destruct (Remove_then_absent demo "A"%string demo_wf)
    as (b & w' & ks & Hrem & _ & Hc & _ & _ & Hrem' & _).
  exists b, w'. split; [exact Hrem|]. split; [exact Hc | exact Hrem'].
Defined.

Lemma Get_marks_newest_witness :
  wf demo ∧ Get "A"%string 50 demo = Ok (Some 1, true) (touched demo 0%nat) ∧
  ∃ ks, Keys demo = Ok (Some <$> ks) demo ∧
    Keys (touched demo 0%nat)
    = Ok (Some <$> (filter (λ k', k' ≠ "A"%string) ks ++ ["A"%string]))
         (touched demo 0%nat).
Proof.
  split; [exact demo_wf|]. split; [exact demo_Get_A|].
  destruct (Get_marks_newest demo "A"%string 50 1 _ demo_wf demo_Get_A)
    as (ks & Hk & Hk' & _).
  exists ks. split; [exact Hk | exact Hk'].
Defined.

Lemma Add_key_order_witness :
  wf demo ∧
  ∃ b w' ks, Add "C"%string 3 10 demo = Ok b w' ∧
    Keys demo = Ok (Some <$> ks) demo ∧
    Keys w' = Ok (Some <$> (if b then tail (filter (λ k', k' ≠ "C"%string) ks ++ ["C"%string])
                            else filter (λ k', k' ≠ "C"%string) ks ++ ["C"%string])) w'.
Proof. split; [exact demo_wf | exact (Add_key_order demo "C"%string 3 10 demo_wf)]. Defined.

Lemma Resize_negative_empties_witness :
  wf demo ∧ -1 < 0 ∧
  Z.of_nat (length (evictList (cache demo))) - -1 < 2 ^ 63 ∧
  ∃ w', Resize (-1) demo
        = Ok (Z.of_nat (length (evictList (cache demo))) - -1) w' ∧
    evictList (cache w') = [] ∧ items (cache w') = ∅.
Proof.
  assert (-1 < 0) as Hsz by lia.
  assert (Z.of_nat (length (evictList (cache demo))) - -1 < 2 ^ 63) as Hn
    by (rewrite demo_order; simpl; lia).
  split; [exact demo_wf|]. split; [exact Hsz|]. split; [exact Hn|].
  destruct (Resize_negative_empties demo (-1) demo_wf Hsz Hn)
    as (w' & Hrun & _ & _ & Hl & Hi & _).
  exists w'. split; [exact Hrun|]. split; [exact Hl | exact Hi].
Defined.

Lemma Resize_overflow_keeps_all_witness :
  wf demo ∧ - 2 ^ 63 <= - 2 ^ 63 ∧
  Z.of_nat (length (evictList (cache demo))) < 2 ^ 63 ∧
  2 ^ 63 <= Z.of_nat (length (evictList (cache demo))) - - 2 ^ 63 ∧
  ∃ w', Resize (- 2 ^ 63) demo = Ok 0 w' ∧
    evictList (cache w') = evictList (cache demo) ∧
    size (cache w') < Z.of_nat (length (evictList (cache w'))).
Proof.
  assert (- 2 ^ 63 <= - 2 ^ 63) as Hsz by lia.
  assert (Z.of_nat (length (evictList (cache demo))) < 2 ^ 63) as Hn
    by (rewrite demo_order; simpl; lia).
  assert (2 ^ 63 <= Z.of_nat (length (evictList (cache demo))) - - 2 ^ 63) as Hover
    by (rewrite demo_order; simpl; lia).
  split; [exact demo_wf|]. split; [exact Hsz|]. split; [exact Hn|].
  split; [exact Hover|].
  destruct (Resize_overflow_keeps_all demo (- 2 ^ 63) demo_wf Hsz Hn Hover)
    as (w' & Hrun & _ & Hl & _ & _ & Hlt).
  exists w'. split; [exact Hrun|]. split; [exact Hl | exact Hlt].
Defined.

Lemma CleanUp_removes_by_key_witness :
  consistent demo_fired ∧
  heap demo_fired !! 0%nat =
    Some {| key := "A"%string; value := 1; ttl := 100;
            timer := {| active := false; deadline := 100; pending := true |} |} ∧
  ∃ w', CleanUp 0%nat demo_fired = Ok tt w' ∧
    items (cache w') = delete "A"%string (items (cache demo_fired)).
Proof.
  split; [exact demo_fired_consistent|]. split; [exact demo_fired_entry_A|].
  pose proof (CleanUp_removes_by_key demo_fired 0%nat _
                demo_fired_consistent demo_fired_entry_A) as Hclean.
  simpl in Hclean. destruct Hclean as (w' & Hrun & Hi & _).
  exists w'. split; [exact Hrun | exact Hi].
Defined.

Lemma stale_timer_removes_new_entry_witness :
  wf demo ∧ items (cache demo) !! "A"%string = Some 0%nat ∧
  heap demo !! 0%nat =
    Some {| key := "A"%string; value := 1; ttl := 100;
            timer := {| active := true; deadline := 100; pending := false |} |} ∧
  1 <= size (cache demo) ∧ 100 <= 100 ∧
  ∃ w1 b w2 w3 w4,
    Remove "A"%string demo = Ok true w1 ∧ Add "A"%string 9 90 w1 = Ok b w2 ∧
    Peek "A"%string w2 = Ok (Some 9, true) w2 ∧
    fire 0%nat 100 w2 = Ok tt w3 ∧ CleanUp 0%nat w3 = Ok tt w4 ∧
    Contains "A"%string w4 = Ok false w4.
Proof.
  assert (1 <= size (cache demo)) as Hsz
    by (rewrite (proj1 demo_config); lia).
  assert (100 <= 100) as Hdue by lia.
  split; [exact demo_wf|]. split; [exact (proj1 demo_index)|].
  split; [exact demo_entry_A|]. split; [exact Hsz|]. split; [exact Hdue|].
  destruct (stale_timer_removes_new_entry demo "A"%string 0%nat _ 9 90 100
              demo_wf (proj1 demo_index) demo_entry_A Hsz Hdue)
    as (w1 & b & w2 & w3 & w4 & Hrem & Hadd & _ & Hpeek & Hfire & Hclean & Hc & _).
  exists w1, b, w2, w3, w4. split; [exact Hrem|]. split; [exact Hadd|].
  split; [exact Hpeek|]. split; [exact Hfire|]. split; [exact Hclean | exact Hc].
Defined.


Lemma Add_after_delivery_witness :
  items (cache demo_fired) !! "A"%string = Some 0%nat ∧
  heap demo_fired !! 0%nat =
    Some {| key := "A"%string; value := 1; ttl := 100;
            timer := {| active := false; deadline := 100; pending := true |} |} ∧
  ∃ w' kv', Add "A"%string 7 120 demo_fired = Ok false w' ∧
    heap w' !! 0%nat = Some kv' ∧ value kv' = 7 ∧
    CleanUp 0%nat w' = Block.
Proof.
  assert (items (cache demo_fired) !! "A"%string = Some 0%nat) as Hi
    by (rewrite demo_fired_eq; exact (proj1 demo_index)).
  split; [exact Hi|]. split; [exact demo_fired_entry_A|].
  pose proof (Add_after_delivery demo_fired "A"%string 7 120 0%nat _
                Hi demo_fired_entry_A eq_refl) as Hadd.
  simpl in Hadd. destruct Hadd as (w' & kv' & Hrun & Hkv' & Hv & _ & _ & _ & _ & Hb).
  exists w', kv'. split; [exact Hrun|]. split; [exact Hkv'|].
  split; [exact Hv | exact Hb].
Defined.

Lemma callback_accounting_witness :
  NewLRUTtl 2 100 true = inr demo0 ∧
  ∃ w' n, run [OAdd "A"%string 1 0; OAdd "B"%string 2 1; OAdd "C"%string 3 2;
               OResize (-1)] demo0 = Ok tt w' ∧
    Len w' = Ok n w' ∧
    Z.of_nat (length (calls w')) + n = Z.of_nat (length (heap w')).
Proof.
  split; [exact demo0_new|].
  exact (callback_accounting 2 100 demo0
           [OAdd "A"%string 1 0; OAdd "B"%string 2 1; OAdd "C"%string 3 2;
            OResize (-1)] demo0_new).
Defined.

(** ** The refresh of [Add] against a delivered timer *)

Example demo_taken_eq :
  demo_taken =
  {| cache := cache demo;
     heap := <[0%nat := {| key := "A"%string; value := 1; ttl := 100;
                           timer := {| active := false; deadline := 100;
                                       pending := false |} |}]> (heap demo);
     calls := calls demo |}.
Proof.
  unfold demo_taken, after.
  rewrite (receive_eq demo_fired 0%nat _ demo_fired_entry_A eq_refl).
  rewrite demo_fired_eq. simpl. by rewrite list_insert_insert_eq.
Qed.

Lemma demo_taken_consistent : consistent demo_taken.
Proof.
  rewrite demo_taken_eq.
  exact (retimed_consistent demo 0%nat _ _ (proj1 demo_wf) demo_entry_A).
Qed.

Example demo_taken_entry_A :
  heap demo_taken !! 0%nat =
  Some {| key := "A"%string; value := 1; ttl := 100;
          timer := {| active := false; deadline := 100; pending := false |} |}.
Proof. by rewrite demo_taken_eq, demo_heap. Qed.

(** C3. The refresh of [Add] does not return on every cache that holds
    the key. On the cache holding "A" and "B", let the runtime deliver
    the timer of "A" and let the goroutine of "A" receive the value, the
    first statement of [CleanUp]: the index and the list still hold "A",
    and [Add("A", 7)] blocks for ever in the receive of [Reset], where
    the claim has it reset the timer and return false. *)
Theorem Add_blocks_after_receive :
  fire 0%nat 100 demo = Ok tt demo_fired ∧
  receive 0%nat demo_fired = Ok tt demo_taken ∧
  consistent demo_taken ∧
  Contains "A"%string demo_taken = Ok true demo_taken ∧
  items (cache demo_taken) !! "A"%string = Some 0%nat ∧
  Add "A"%string 7 120 demo_taken = Block ∧
  ¬ ∃ w', Add "A"%string 7 120 demo_taken = Ok false w'.
Proof.
  assert (items (cache demo_taken) !! "A"%string = Some 0%nat) as Hi
    by (rewrite demo_taken_eq; exact (proj1 demo_index)).
  assert (Add "A"%string 7 120 demo_taken = Block) as Hblock
    by exact (Add_present_block demo_taken "A"%string 7 120 0%nat _
                Hi demo_taken_entry_A eq_refl eq_refl).
  split.
  { rewrite demo_fired_eq.
    exact (fire_eq demo 0%nat _ 100 demo_entry_A eq_refl ltac:(simpl; lia)). }
  split.
  { rewrite demo_taken_eq, (receive_eq demo_fired 0%nat _ demo_fired_entry_A eq_refl).
    rewrite demo_fired_eq. simpl. by rewrite list_insert_insert_eq. }
  split; [exact demo_taken_consistent|].
  split; [rewrite Contains_eq, Hi; by rewrite bool_decide_eq_true_2|].
  split; [exact Hi|]. split; [exact Hblock|].
  intros [w' Hadd]. by rewrite Hblock in Hadd.
Qed.
